(** * Norvig-style spelling corrector ([spellchecker.py]): shallow embedding

    The module is a chain of small pure functions over Python strings,
    lists and sets, plus one process-wide [Counter] built from the corpus.

    Modelling choices.
    - A Python [str] is a [list ascii]; slicing [w[:i]], [w[i:]] is
      [take]/[drop], indexing [R[i]] is fallible ([IndexError]).
    - A Python [set] is a [gset word].  Its iteration order is not fixed by
      the language, so every iteration goes through a parameter [set_iter]
      about which only "enumerates the members once each" is assumed.
    - The [Counter] is a [gmap word Z]; a missing key reads as [0].
    - Exceptions are explicit: every function that can raise returns a
      [result].
    - A Python [float] is modelled by an exact rational ([Qc]); rounding and
      overflow of binary64 are outside the model.
    - The corpus file is not part of the module: the token list read from
      it is a parameter [corpus].  The tokenizer [words], [get_longest],
      [candidate_probs] and [unit_tests] play no part in the properties
      below and are not embedded.
    - A character is an [ascii]; nothing below depends on the character
      type beyond decidable equality and the 26 [letters]. *)

From Stdlib Require Import ZArith QArith Qcanon Ascii String Lia.
From stdpp Require Import base numbers list gmap fin_maps fin_sets strings.

#[local] Set Warnings "-clear-no-such-hyp".

Local Open Scope Z_scope.
Local Open Scope nat_scope.

(** ** Python values *)

Abbreviation word := (list ascii).

(** Reading a string literal as a word. *)
Definition str (s : string) : word := list_ascii_of_string s.

Inductive exn : Type :=
  | IndexError
  | ZeroDivisionError
  | ValueError.

Inductive result (A : Type) : Type :=
  | Ok (a : A)
  | Raise (e : exn).
Arguments Ok {A} a.
Arguments Raise {A} e.

(** Sequencing: the first exception propagates. *)
Global Instance result_bind : MBind result := λ A B k m,
  match m with
  | Ok a => k a
  | Raise e => Raise e
  end.

(** A list comprehension whose body can raise: elements are evaluated left to
    right and the first exception aborts the whole comprehension. *)
Fixpoint comprehend {A B} (f : A → result B) (l : list A) : result (list B) :=
  match l with
  | [] => Ok []
  | x :: l' => y ← f x ; ys ← comprehend f l' ; Ok (y :: ys)
  end.

(** [s[i]] for a non-negative index. *)
Definition index (s : word) (i : nat) : result ascii :=
  match s !! i with
  | Some c => Ok c
  | None => Raise IndexError
  end.

(** What [candidate] hands to [max]: a set, or the one-element list of the
    last disjunct. *)
Inductive collection : Type :=
  | PySet (s : gset word)
  | PyList (l : list word).

(** ** The edit generator *)

Definition letters : word := str "abcdefghijklmnopqrstuvwxyz".

Definition get_splits (w : word) : list (word * word) :=
  (λ i, (take i w, drop i w)) <$> seq 0 (length w + 1).

Definition get_deletes (splits : list (word * word)) : list word :=
  (λ '(L, R), L ++ drop 1 R) <$> splits.

Definition transpose_at (s : word * word) : result word :=
  let '(L, R) := s in
  r1 ← index R 1 ; r0 ← index R 0 ; Ok (L ++ [r1] ++ [r0] ++ drop 2 R).

Definition get_transposes (splits : list (word * word)) : result (list word) :=
  comprehend transpose_at
    (filter (λ s : word * word, 1 < length s.2) splits).

Definition get_replaces (splits : list (word * word)) : list word :=
  '(L, R) ← filter (λ s : word * word, s.2 ≠ []) splits;
  (λ c, L ++ [c] ++ drop 1 R) <$> letters.

Definition get_inserts (splits : list (word * word)) : list word :=
  '(L, R) ← splits; (λ c, L ++ [c] ++ R) <$> letters.

Definition edits1 (w : word) : result (gset word) :=
  let splits := (λ i, (take i w, drop i w)) <$> seq 0 (length w + 1) in
  let deletes := get_deletes splits in
  transposes ← get_transposes splits ;
  let replaces := get_replaces splits in
  let inserts := get_inserts splits in
  Ok (list_to_set (deletes ++ transposes ++ replaces ++ inserts)).

(** ** Keyed maximum *)

(** [max(iterable, key=key)]: [ValueError] on an empty iterable, the key is
    called once on every item, and a later item replaces the current best
    only when its key is strictly greater. *)
Fixpoint max_loop {A} (key : A → result Qc) (best : A) (kbest : Qc)
    (l : list A) : result A :=
  match l with
  | [] => Ok best
  | x :: l' =>
      kx ← key x ;
      if decide (kbest < kx)%Qc then max_loop key x kx l'
      else max_loop key best kbest l'
  end.

Definition max_key {A} (key : A → result Qc) (l : list A) : result A :=
  match l with
  | [] => Raise ValueError
  | x :: l' => kx ← key x ; max_loop key x kx l'
  end.

(** ** The frequency table *)

(** One round of [Counter.update]: [self[elem] = self.get(elem, 0) + 1]. *)
Definition Counter_add (m : gmap word Z) (w : word) : gmap word Z :=
  <[w := (default 0 (m !! w) + 1)%Z]> m.

(** [Counter(iterable)]: one increment per element, starting empty. *)
Definition Counter (l : list word) : gmap word Z := foldl Counter_add ∅ l.

(** [sum(m.values())]. *)
Definition sum_values (m : gmap word Z) : Z :=
  map_fold (λ _ v acc, (v + acc)%Z) 0%Z m.

(** [a / b] for an [int] and a [float]. *)
Definition truediv (a : Z) (b : Qc) : result Qc :=
  if decide (b = 0%Qc) then Raise ZeroDivisionError
  else Ok (Qc_of_Z a / b)%Qc.

Section Corrector.

(** The token list [words(open('big.txt').read())]. *)
Variable corpus : list word.

(** Iteration order of a set. *)
Variable set_iter : gset word → list word.

Definition WORDS : gmap word Z := Counter corpus.

(** The default argument [N=sum(WORDS.values())], evaluated once. *)
Definition N : Z := sum_values WORDS.

Definition P (w : word) : result Qc :=
  truediv (default 0%Z (WORDS !! w)) (Qc_of_Z N).

Definition known (ws : list word) : gset word :=
  list_to_set (filter (λ w, w ∈ dom WORDS) ws).

(** The generator [(e2 for e1 in edits1(word) for e2 in edits1(e1))],
    as the sequence of values it yields. *)
Definition edits2 (w : word) : result (list word) :=
  s1 ← edits1 w ;
  ess ← comprehend (λ e1, s ← edits1 e1 ; Ok (set_iter s)) (set_iter s1) ;
  Ok (mjoin (ess : list (list word))).

Definition truthy (s : gset word) : bool := bool_decide (s ≠ ∅).

Definition candidate (w : word) : result collection :=
  let k0 := known [w] in
  if truthy k0 then Ok (PySet k0) else
  s1 ← edits1 w ;
  let k1 := known (set_iter s1) in
  if truthy k1 then Ok (PySet k1) else
  e2 ← edits2 w ;
  let k2 := known e2 in
  if truthy k2 then Ok (PySet k2) else
  Ok (PyList [w]).

Definition iterate (c : collection) : list word :=
  match c with
  | PySet s => set_iter s
  | PyList l => l
  end.

Definition members (c : collection) : gset word :=
  match c with
  | PySet s => s
  | PyList l => list_to_set l
  end.

Definition correction (w : word) : result word :=
  c ← candidate w ; max_key P (iterate c).

End Corrector.

(** ** Exception-free reading of the edit generator

    The guard [len(R) > 1] keeps both subscripts of a transposition in
    range; [swap_at] is what [transpose_at] computes under that guard, and
    [edits1_list] is the concatenation [edits1] turns into a set. *)

Definition swap_at (s : word * word) : word :=
  match s.2 with
  | a :: b :: R => s.1 ++ [b] ++ [a] ++ R
  | _ => s.1 ++ s.2
  end.

Definition transposes_list (splits : list (word * word)) : list word :=
  swap_at <$> filter (λ s : word * word, 1 < length s.2) splits.

Definition edits1_list (w : word) : list word :=
  let splits := get_splits w in
  get_deletes splits ++ transposes_list splits
    ++ get_replaces splits ++ get_inserts splits.

(** ** Reference notions the claims are phrased in *)

(** One primitive operation on a word: deleting one character, swapping two
    adjacent characters, replacing one character by a letter of the alphabet,
    inserting a letter of the alphabet. *)
Inductive primitive_edit : word → word → Prop :=
  | edit_delete L c R :
      primitive_edit (L ++ c :: R) (L ++ R)
  | edit_transpose L a b R :
      primitive_edit (L ++ a :: b :: R) (L ++ b :: a :: R)
  | edit_replace L a c R :
      c ∈ letters → primitive_edit (L ++ a :: R) (L ++ c :: R)
  | edit_insert L c R :
      c ∈ letters → primitive_edit (L ++ R) (L ++ c :: R).

(** The set union of [edits1] applied to every member of [edits1 w], with no
    reference to an iteration order. *)
Definition edits2_union (w : word) : result (gset word) :=
  s1 ← edits1 w ; sets ← comprehend edits1 (elements s1) ; Ok (⋃ sets).

(** The fallback cascade over the table's keys [keys], the distance-1 edits
    [e1] and the distance-2 edits [e2] of [w]. *)
Definition cascade (keys : gset word) (w : word) (e1 e2 : gset word)
    : gset word :=
  if decide (w ∈ keys) then {[w]}
  else if decide (e1 ∩ keys ≠ ∅) then e1 ∩ keys
  else if decide (e2 ∩ keys ≠ ∅) then e2 ∩ keys
  else {[w]}.

(** How many tokens of the corpus are the word [w]. *)
Definition occurrences (w : word) (l : list word) : nat :=
  length (filter (λ x, x = w) l).

(** [count(w) / total] as an exact rational. *)
Definition ratio (count total : Z) : Qc := (Qc_of_Z count / Qc_of_Z total)%Qc.

(** The total of the four per-operation counts for a word of length [n]:
    [n + 1] deletions, [n - 1] transpositions, [26 n] replacements and
    [26 (n + 1)] insertions. *)
Definition edits1_budget (n : nat) : nat :=
  (n + 1) + (n - 1) + 26 * n + 26 * (n + 1).

(** A three-token corpus for the concrete instances. *)
Definition sample_corpus : list word := str <$> ["ab"; "ab"; "cd"]%string.

(** ** The tokenizer and the remaining helpers

    [str.lower] and the character class [\w] belong to the Python runtime;
    they are parameters here, and nothing is assumed about them. *)

Section Tokenizer.
Variable lower : word → word.
Variable is_word : ascii → bool.

(** The greedy match of [\w+] tried at the start of [s]: the longest prefix
    of word characters, and what follows it. *)
Fixpoint word_run (s : word) : word * word :=
  match s with
  | [] => ([], [])
  | c :: s' =>
      if is_word c then let '(run, rest) := word_run s' in (c :: run, rest)
      else ([], s)
  end.

(** The scan of [re.findall(r'\w+', s)]: where no match starts, move one
    character on; where one starts, take it whole and go on after it.
    [fuel] bounds the number of scan steps. *)
Fixpoint findall_from (fuel : nat) (s : word) : list word :=
  match fuel with
  | 0 => []
  | S fuel' =>
      match s with
      | [] => []
      | c :: s' =>
          if is_word c
          then let '(run, rest) := word_run s in run :: findall_from fuel' rest
          else findall_from fuel' s'
      end
  end.

(** Every scan step consumes a character, so [length s] steps are enough. *)
Definition findall (s : word) : list word := findall_from (length s) s.

Definition words (text : word) : list word := findall (lower text).

(** [build_word_dict], with the text of the corpus file as its input. *)
Definition build_word_dict (text : word) : gmap word Z := Counter (words text).

End Tokenizer.

(** [max(words, key=len)]. *)
Fixpoint longest_loop (best : word) (l : list word) : word :=
  match l with
  | [] => best
  | x :: l' =>
      if decide (length best < length x) then longest_loop x l'
      else longest_loop best l'
  end.

Definition get_longest (ws : list word) : result word :=
  match ws with
  | [] => Raise ValueError
  | x :: l => Ok (longest_loop x l)
  end.

(** [list(map(P, candidates))]. *)
Definition candidate_probs (corpus : list word) (candidates : list word)
    : result (list Qc) :=
  comprehend (P corpus) candidates.

(** [str.lower] and [\w] on 7-bit ASCII text, for the concrete examples. *)
Definition ascii_lower (s : word) : word :=
  (λ c, let n := nat_of_ascii c in
        if (65 <=? n) && (n <=? 90) then ascii_of_nat (n + 32) else c) <$> s.

Definition ascii_is_word (c : ascii) : bool :=
  let n := nat_of_ascii c in
  ((48 <=? n) && (n <=? 57)) || ((65 <=? n) && (n <=? 90))
  || ((97 <=? n) && (n <=? 122)) || (n =? 95).

(** [sep.join(ts)] for a one-character separator. *)
Fixpoint join (sep : ascii) (ts : list word) : word :=
  match ts with
  | [] => []
  | [t] => t
  | t :: ts' => t ++ sep :: join sep ts'
  end.

(** ** Sanity checks against the docstrings *)

Example get_splits_take :
  get_splits (str "take") =
  [(str "", str "take"); (str "t", str "ake"); (str "ta", str "ke");
   (str "tak", str "e"); (str "take", str "")].
Proof. reflexivity. Qed.

Example get_deletes_take :
  get_deletes (get_splits (str "take")) =
  str <$> ["ake"; "tke"; "tae"; "tak"; "take"]%string.
Proof. reflexivity. Qed.

Example get_transposes_take :
  get_transposes (get_splits (str "take")) =
  Ok (str <$> ["atke"; "tkae"; "taek"]%string).
Proof. reflexivity. Qed.

Example edits1_take_size :
  (s ← edits1 (str "take") ; Ok (size s)) = Ok 234.
Proof. vm_compute. reflexivity. Qed.

(** ** Exceptions and comprehensions *)

Lemma comprehend_ok {A B} (f : A → result B) (g : A → B) (l : list A) :
  (∀ x, x ∈ l → f x = Ok (g x)) → comprehend f l = Ok (g <$> l).
Proof.
  induction l as [|x l IH]; intros Hf; [done|].
  cbn [comprehend]. rewrite (Hf x) by left.
  cbn. rewrite IH; [done|]. intros y Hy. apply Hf. by right.
Qed.

(** ** Splits *)

Lemma elem_of_get_splits (w L R : word) :
  (L, R) ∈ get_splits w ↔ L ++ R = w.
Proof.
  unfold get_splits. rewrite list_elem_of_fmap. split.
  - intros (i & [= -> ->] & _). apply take_drop.
  - intros <-. exists (length L). split.
    + by rewrite take_app_length, drop_app_length.
    + apply elem_of_seq. rewrite length_app. lia.
Qed.

Lemma get_splits_nil : get_splits [] = [([], [])].
Proof. done. Qed.

Lemma get_splits_cons (a : ascii) (w : word) :
  get_splits (a :: w) =
  ([], a :: w) :: ((λ s : word * word, (a :: s.1, s.2)) <$> get_splits w).
Proof.
  unfold get_splits. cbn [length Nat.add seq fmap list_fmap take drop].
  f_equal. rewrite <- seq_shift, <- !list_fmap_compose. done.
Qed.

Lemma length_get_splits (w : word) : length (get_splits w) = length w + 1.
Proof. unfold get_splits. by rewrite length_fmap, length_seq. Qed.

(** ** The four edit operations *)

Lemma transpose_at_ok (s : word * word) :
  1 < length s.2 → transpose_at s = Ok (swap_at s).
Proof.
  destruct s as [L [|a [|b R]]]; cbn [snd length]; try lia. done.
Qed.

Lemma get_transposes_ok (splits : list (word * word)) :
  get_transposes splits = Ok (transposes_list splits).
Proof.
  apply comprehend_ok. intros s [Hs _]%list_elem_of_filter.
  by apply transpose_at_ok.
Qed.

Lemma edits1_ok (w : word) : edits1 w = Ok (list_to_set (edits1_list w)).
Proof.
  unfold edits1, edits1_list. fold (get_splits w).
  by rewrite get_transposes_ok.
Qed.

Lemma elem_of_get_deletes (w e : word) :
  e ∈ get_deletes (get_splits w) ↔ ∃ L R, L ++ R = w ∧ e = L ++ drop 1 R.
Proof.
  unfold get_deletes. rewrite list_elem_of_fmap. split.
  - intros ([L R] & -> & H%elem_of_get_splits). eauto.
  - intros (L & R & H%elem_of_get_splits & ->). by exists (L, R).
Qed.

Lemma elem_of_transposes_list (w e : word) :
  e ∈ transposes_list (get_splits w) ↔
  ∃ L a b R, L ++ a :: b :: R = w ∧ e = L ++ b :: a :: R.
Proof.
  unfold transposes_list. rewrite list_elem_of_fmap. split.
  - intros ([L R] & -> & [Hlen H%elem_of_get_splits]%list_elem_of_filter).
    destruct R as [|a [|b R]]; cbn in Hlen; try lia. by exists L, a, b, R.
  - intros (L & a & b & R & H%elem_of_get_splits & ->).
    exists (L, a :: b :: R). split; [done|].
    apply list_elem_of_filter. split; [cbn; lia | done].
Qed.

Lemma elem_of_get_replaces (w e : word) :
  e ∈ get_replaces (get_splits w) ↔
  ∃ L a c R, L ++ a :: R = w ∧ c ∈ letters ∧ e = L ++ c :: R.
Proof.
  unfold get_replaces. rewrite list_elem_of_bind. split.
  - intros ([L R] & He & [Hne H%elem_of_get_splits]%list_elem_of_filter).
    apply list_elem_of_fmap in He as (c & -> & Hc).
    destruct R as [|a R]; [done|]. by exists L, a, c, R.
  - intros (L & a & c & R & H%elem_of_get_splits & Hc & ->).
    exists (L, a :: R). split.
    + apply list_elem_of_fmap. by exists c.
    + by apply list_elem_of_filter.
Qed.

Lemma elem_of_get_inserts (w e : word) :
  e ∈ get_inserts (get_splits w) ↔
  ∃ L c R, L ++ R = w ∧ c ∈ letters ∧ e = L ++ c :: R.
Proof.
  unfold get_inserts. rewrite list_elem_of_bind. split.
  - intros ([L R] & He & H%elem_of_get_splits).
    apply list_elem_of_fmap in He as (c & -> & Hc). by exists L, c, R.
  - intros (L & c & R & H%elem_of_get_splits & Hc & ->).
    exists (L, R). split; [|done].
    apply list_elem_of_fmap. by exists c.
Qed.

(** The members of [edits1 w] are [w] and the words one operation away. *)
Lemma elem_of_edits1_list (w e : word) :
  e ∈ edits1_list w ↔ e = w ∨ primitive_edit w e.
Proof.
  unfold edits1_list. cbn zeta. rewrite !elem_of_app.
  rewrite elem_of_get_deletes, elem_of_transposes_list,
    elem_of_get_replaces, elem_of_get_inserts.
  split.
  - intros [(L & R & <- & ->)|[(L & a & b & R & <- & ->)|
      [(L & a & c & R & <- & Hc & ->)|(L & c & R & <- & Hc & ->)]]].
    + destruct R as [|c R]; [left; cbn [drop]; by rewrite app_nil_r|].
      right. apply edit_delete.
    + right. apply edit_transpose.
    + right. by apply edit_replace.
    + right. by apply edit_insert.
  - intros [->|H].
    + left. exists w, []. cbn [drop]. by rewrite app_nil_r.
    + destruct H as [L c R|L a b R|L a c R Hc|L c R Hc].
      * left. by exists L, (c :: R).
      * right; left. by exists L, a, b, R.
      * right; right; left. by exists L, a, c, R.
      * right; right; right. by exists L, c, R.
Qed.

(** The empty-right split makes the deletion list end with the word
    itself. *)
Lemma edits1_list_self (w : word) : w ∈ edits1_list w.
Proof.
  unfold edits1_list. cbn zeta. apply elem_of_app. left.
  apply elem_of_get_deletes. exists w, []. cbn [drop]. by rewrite app_nil_r.
Qed.

(** ** Counting the edits *)

Lemma length_bind_const {A B} (g : A → list B) (n : nat) (l : list A) :
  (∀ x, length (g x) = n) → length (l ≫= g) = n * length l.
Proof.
  intros Hg. induction l as [|x l IH]; [cbn; lia|].
  rewrite bind_cons, length_app, Hg, IH. cbn [length]. lia.
Qed.

Lemma length_filter_right_cons (Q : word → Prop) `{!∀ R, Decision (Q R)}
    (a : ascii) (l : list (word * word)) :
  length (filter (λ s : word * word, Q s.2)
            ((λ s : word * word, (a :: s.1, s.2)) <$> l)) =
  length (filter (λ s : word * word, Q s.2) l).
Proof.
  induction l as [|s l IH]; [done|].
  rewrite fmap_cons, !filter_cons. cbn [snd].
  destruct (decide (Q s.2)); cbn [length]; by rewrite IH.
Qed.

Lemma length_get_deletes (w : word) :
  length (get_deletes (get_splits w)) = length w + 1.
Proof. unfold get_deletes. by rewrite length_fmap, length_get_splits. Qed.

Lemma length_transposes_list (w : word) :
  length (transposes_list (get_splits w)) = length w - 1.
Proof.
  unfold transposes_list. rewrite length_fmap.
  induction w as [|a w IH]; [done|].
  rewrite get_splits_cons, filter_cons. cbn [snd].
  pose proof (length_filter_right_cons (λ R, 1 < length R) a (get_splits w))
    as Hshift.
  cbv beta in Hshift.
  case_decide as Hlen; cbn [length] in *; rewrite Hshift, IH; lia.
Qed.

Lemma length_get_replaces (w : word) :
  length (get_replaces (get_splits w)) = 26 * length w.
Proof.
  unfold get_replaces.
  rewrite (length_bind_const _ 26) by (by intros [L R]; rewrite length_fmap).
  f_equal. induction w as [|a w IH]; [done|].
  rewrite get_splits_cons, filter_cons. cbn [snd].
  pose proof (length_filter_right_cons (λ R, R ≠ []) a (get_splits w))
    as Hshift.
  cbv beta in Hshift.
  case_decide; [|done]. cbn [length]. by rewrite Hshift, IH.
Qed.

Lemma length_get_inserts (w : word) :
  length (get_inserts (get_splits w)) = 26 * (length w + 1).
Proof.
  unfold get_inserts.
  rewrite (length_bind_const _ 26) by (by intros [L R]; rewrite length_fmap).
  by rewrite length_get_splits.
Qed.

Lemma length_edits1_list (w : word) :
  length (edits1_list w) = edits1_budget (length w).
Proof.
  unfold edits1_list, edits1_budget. cbn zeta. rewrite !length_app.
  rewrite length_get_deletes, length_transposes_list,
    length_get_replaces, length_get_inserts. lia.
Qed.

Lemma size_list_to_set_le (l : list word) :
  size (list_to_set l : gset word) ≤ length l.
Proof.
  induction l as [|x l IH]; [by rewrite list_to_set_nil, size_empty|].
  rewrite list_to_set_cons, size_union_alt, size_singleton. cbn [length].
  pose proof (subseteq_size (list_to_set l ∖ {[x]}) (list_to_set l : gset word)
                (subseteq_difference_l _ _ _ (reflexivity _))).
  lia.
Qed.

(** ** The frequency table *)

Lemma sum_values_insert (m : gmap word Z) (w : word) (v : Z) :
  m !! w = None → sum_values (<[w := v]> m) = (v + sum_values m)%Z.
Proof.
  intros Hw. unfold sum_values.
  rewrite map_fold_insert_L; [done| |done]. intros; lia.
Qed.

Lemma sum_values_delete (m : gmap word Z) (w : word) (v : Z) :
  m !! w = Some v → sum_values m = (v + sum_values (delete w m))%Z.
Proof.
  intros Hw. unfold sum_values.
  rewrite (map_fold_delete_L _ _ w v m); [done| |done]. intros; lia.
Qed.

Lemma sum_values_Counter_add (m : gmap word Z) (w : word) :
  sum_values (Counter_add m w) = (sum_values m + 1)%Z.
Proof.
  unfold Counter_add.
  destruct (m !! w) as [v|] eqn:Hw; cbn [default from_option id].
  - rewrite <- insert_delete_eq.
    rewrite sum_values_insert by apply lookup_delete_eq.
    rewrite (sum_values_delete m w v) by done. lia.
  - rewrite sum_values_insert by done. lia.
Qed.

Lemma sum_values_foldl (l : list word) (m : gmap word Z) :
  sum_values (foldl Counter_add m l) = (sum_values m + Z.of_nat (length l))%Z.
Proof.
  revert m. induction l as [|w l IH]; intros m; cbn [foldl length].
  - lia.
  - rewrite IH, sum_values_Counter_add. lia.
Qed.

Lemma dom_foldl_Counter_add (l : list word) (m : gmap word Z) :
  dom (foldl Counter_add m l) = dom m ∪ list_to_set l.
Proof.
  revert m. induction l as [|w l IH]; intros m; cbn [foldl].
  - set_solver.
  - rewrite IH. unfold Counter_add. rewrite dom_insert_L. set_solver.
Qed.

Lemma occurrences_cons (w x : word) (l : list word) :
  occurrences w (x :: l) =
  if decide (x = w) then S (occurrences w l) else occurrences w l.
Proof. unfold occurrences. rewrite filter_cons. by case_decide. Qed.

Lemma lookup_foldl_Counter_add (l : list word) (m : gmap word Z) (w : word) :
  default 0%Z (foldl Counter_add m l !! w) =
  (default 0%Z (m !! w) + Z.of_nat (occurrences w l))%Z.
Proof.
  revert m. induction l as [|x l IH]; intros m; cbn [foldl].
  - unfold occurrences. cbn. lia.
  - rewrite IH, occurrences_cons. unfold Counter_add.
    rewrite lookup_insert. case_decide as Hx.
    + subst x. cbn [default from_option id]. lia.
    + lia.
Qed.

(** A key of the table holds the number of its occurrences in the corpus. *)
Lemma lookup_WORDS (corpus : list word) (w : word) (count : Z) :
  WORDS corpus !! w = Some count → count = Z.of_nat (occurrences w corpus).
Proof.
  intros Hw.
  pose proof (lookup_foldl_Counter_add corpus ∅ w) as H.
  fold (Counter corpus) in H. fold (WORDS corpus) in H.
  rewrite Hw, lookup_empty in H. cbn [default from_option id] in H. lia.
Qed.

(** The total [N] is the number of tokens of the corpus. *)
Lemma N_length (corpus : list word) : N corpus = Z.of_nat (length corpus).
Proof.
  unfold N, WORDS, Counter. rewrite sum_values_foldl.
  unfold sum_values. by rewrite map_fold_empty.
Qed.

(** The keys of the table are the distinct tokens of the corpus. *)
Lemma dom_WORDS (corpus : list word) : dom (WORDS corpus) = list_to_set corpus.
Proof.
  unfold WORDS, Counter. rewrite dom_foldl_Counter_add. set_solver.
Qed.

Lemma N_nonzero (corpus : list word) : corpus ≠ [] → N corpus ≠ 0%Z.
Proof. rewrite N_length. destruct corpus; [done|]. cbn [length]. lia. Qed.

Lemma known_word_corpus_nonempty (corpus : list word) (w : word) :
  w ∈ dom (WORDS corpus) → corpus ≠ [].
Proof. rewrite dom_WORDS. intros Hw ->. set_solver. Qed.

(** With at least one token in the corpus, [P] divides by a non-zero total. *)
Lemma P_ok (corpus : list word) (w : word) :
  corpus ≠ [] →
  P corpus w = Ok (ratio (default 0%Z (WORDS corpus !! w)) (N corpus)).
Proof.
  intros HN%N_nonzero. unfold P, truediv.
  case_decide as Hz; [|done].
  rewrite <- Z2Qc_inj_0 in Hz. by apply Z2Qc_inj in Hz.
Qed.

(** On an empty corpus the table is empty, [N = 0], and the division in [P]
    is a division by [float(0)]. *)
Lemma P_empty_corpus (w : word) : P [] w = Raise ZeroDivisionError.
Proof. done. Qed.

(** ** Keyed maximum *)

Section MaxKey.
Context {A : Type} (key : A → result Qc) (k : A → Qc).
Hypothesis key_ok : ∀ x, key x = Ok (k x).

Lemma max_loop_spec (l : list A) (best : A) :
  ∃ r, max_loop key best (k best) l = Ok r
       ∧ (r = best ∨ r ∈ l)
       ∧ (k best ≤ k r)%Qc
       ∧ ∀ x, x ∈ l → (k x ≤ k r)%Qc.
Proof.
  revert best. induction l as [|x l IH]; intros best; cbn [max_loop].
  - exists best. repeat split; [by left|done|]. intros x Hx. inv Hx.
  - rewrite key_ok. cbn. case_decide as Hlt.
    + destruct (IH x) as (r & Hr & Hin & Hle & Hall).
      exists r. repeat split; [done| | |].
      * right. destruct Hin as [->|Hin]; [by left|by right].
      * trans (k x); [by apply Qclt_le_weak|done].
      * intros y [->|Hy]%elem_of_cons; [done|by apply Hall].
    + apply Qcnot_lt_le in Hlt.
      destruct (IH best) as (r & Hr & Hin & Hle & Hall).
      exists r. repeat split; [done| |done|].
      * destruct Hin as [->|Hin]; [by left|right; by right].
      * intros y [->|Hy]%elem_of_cons; [by trans (k best)|by apply Hall].
Qed.

Lemma max_key_spec (l : list A) :
  l ≠ [] →
  ∃ r, max_key key l = Ok r ∧ r ∈ l ∧ ∀ x, x ∈ l → (k x ≤ k r)%Qc.
Proof.
  destruct l as [|x l]; [done|]. intros _. cbn [max_key].
  rewrite key_ok. cbn.
  destruct (max_loop_spec l x) as (r & Hr & Hin & Hle & Hall).
  exists r. repeat split; [done| |].
  - destruct Hin as [->|Hin]; [by left|by right].
  - intros y [->|Hy]%elem_of_cons; [done|by apply Hall].
Qed.
End MaxKey.

(** ** Candidates and correction *)

Lemma cascade_nonempty (keys : gset word) (w : word) (e1 e2 : gset word) :
  cascade keys w e1 e2 ≠ ∅.
Proof. unfold cascade. repeat case_decide; set_solver. Qed.

Lemma cascade_subseteq (keys : gset word) (w : word) (e1 e2 : gset word) :
  cascade keys w e1 e2 ⊆ keys ∪ {[w]}.
Proof. unfold cascade. repeat case_decide; set_solver. Qed.

Lemma known_spec (corpus ws : list word) :
  known corpus ws = list_to_set ws ∩ dom (WORDS corpus).
Proof.
  apply set_eq. intros x. unfold known.
  rewrite elem_of_list_to_set, list_elem_of_filter, elem_of_intersection,
    elem_of_list_to_set. tauto.
Qed.

Lemma known_singleton (corpus : list word) (w : word) :
  known corpus [w] = if decide (w ∈ dom (WORDS corpus)) then {[w]} else ∅.
Proof. rewrite known_spec. case_decide; set_solver. Qed.

Lemma truthy_spec (s : gset word) :
  truthy s = if decide (s ≠ ∅) then true else false.
Proof. unfold truthy. by case_decide; case_bool_decide. Qed.

Section CorrectorFacts.
Variable corpus : list word.
Variable set_iter : gset word → list word.
Hypothesis set_iter_perm : ∀ s, set_iter s ≡ₚ elements s.

Lemma elem_of_set_iter (s : gset word) (x : word) : x ∈ set_iter s ↔ x ∈ s.
Proof. rewrite (set_iter_perm s). apply elem_of_elements. Qed.

Lemma list_to_set_set_iter (s : gset word) : list_to_set (set_iter s) = s.
Proof.
  apply set_eq. intros x. by rewrite elem_of_list_to_set, elem_of_set_iter.
Qed.

Lemma known_set_iter (s : gset word) :
  known corpus (set_iter s) = s ∩ dom (WORDS corpus).
Proof. by rewrite known_spec, list_to_set_set_iter. Qed.

(** [edits2] never raises; it yields, for each distance-1 edit in iteration
    order, that edit's own distance-1 edits in iteration order. *)
Lemma edits2_ok (w : word) :
  edits2 set_iter w =
  Ok (mjoin ((λ e1, set_iter (list_to_set (edits1_list e1)))
                <$> set_iter (list_to_set (edits1_list w)))).
Proof.
  unfold edits2. rewrite edits1_ok. cbn.
  rewrite (comprehend_ok _ (λ e1, set_iter (list_to_set (edits1_list e1))));
    [done|].
  intros e1 _. by rewrite edits1_ok.
Qed.

Lemma edits2_union_ok (w : word) :
  edits2_union w =
  Ok (⋃ ((λ e1, list_to_set (edits1_list e1))
           <$> elements (list_to_set (edits1_list w) : gset word))).
Proof.
  unfold edits2_union. rewrite edits1_ok. cbn.
  rewrite (comprehend_ok _ (λ e1, list_to_set (edits1_list e1))); [done|].
  intros e1 _. by rewrite edits1_ok.
Qed.

Lemma elem_of_edits2 (w e : word) (l : list word) :
  edits2 set_iter w = Ok l →
  e ∈ l ↔ ∃ e1, e1 ∈ edits1_list w ∧ e ∈ edits1_list e1.
Proof.
  rewrite edits2_ok. intros [= <-].
  rewrite list_elem_of_join. split.
  - intros (es & He & (e1 & -> & He1)%list_elem_of_fmap).
    exists e1. apply elem_of_set_iter, elem_of_list_to_set in He, He1. done.
  - intros (e1 & He1 & He). exists (set_iter (list_to_set (edits1_list e1))).
    split; [by apply elem_of_set_iter, elem_of_list_to_set|].
    apply list_elem_of_fmap. exists e1. split; [done|].
    by apply elem_of_set_iter, elem_of_list_to_set.
Qed.

(** The value of [candidate], stage by stage. *)
Lemma candidate_ok (w : word) :
  ∃ c l2, candidate corpus set_iter w = Ok c
          ∧ edits2 set_iter w = Ok l2
          ∧ members c =
            cascade (dom (WORDS corpus)) w
              (list_to_set (edits1_list w)) (list_to_set l2).
Proof.
  destruct (edits2 set_iter w) as [l2|] eqn:Hl2;
    [|by rewrite edits2_ok in Hl2].
  unfold candidate, cascade. cbn zeta.
  rewrite known_singleton, edits1_ok. cbn.
  rewrite known_set_iter, Hl2. cbn.
  rewrite !truthy_spec, known_spec.
  destruct (decide (w ∈ dom (WORDS corpus))) as [Hw|Hw].
  { rewrite decide_True by set_solver. by eexists _, _. }
  rewrite decide_False by (intros H; by apply H).
  destruct (decide (_ ∩ _ ≠ ∅)); [by eexists _, _|].
  destruct (decide (list_to_set l2 ∩ dom (WORDS corpus) ≠ ∅)) as [He2|He2].
  { eexists _, l2. by rewrite decide_True. }
  eexists _, l2. rewrite decide_False by done.
  repeat split. cbn. set_solver.
Qed.

Lemma elem_of_iterate (c : collection) (x : word) :
  x ∈ iterate set_iter c ↔ x ∈ members c.
Proof.
  destruct c as [s|l]; cbn.
  - apply elem_of_set_iter.
  - by rewrite elem_of_list_to_set.
Qed.

Lemma iterate_nonempty (c : collection) :
  members c ≠ ∅ → iterate set_iter c ≠ [].
Proof.
  intros Hne Hnil. apply Hne. apply set_eq. intros x.
  rewrite <- elem_of_iterate, Hnil. set_solver.
Qed.

(** On a corpus with at least one token, [correction] returns a member of
    the candidate collection whose probability no other member exceeds. *)
Lemma correction_ok (w : word) :
  corpus ≠ [] →
  ∃ c l2 r,
    candidate corpus set_iter w = Ok c
    ∧ edits2 set_iter w = Ok l2
    ∧ members c =
      cascade (dom (WORDS corpus)) w
        (list_to_set (edits1_list w)) (list_to_set l2)
    ∧ correction corpus set_iter w = Ok r
    ∧ r ∈ members c
    ∧ ∀ x, x ∈ members c →
        (ratio (default 0%Z (WORDS corpus !! x)) (N corpus)
         ≤ ratio (default 0%Z (WORDS corpus !! r)) (N corpus))%Qc.
Proof.
  intros Hne. destruct (candidate_ok w) as (c & l2 & Hc & Hl2 & Hm).
  assert (iterate set_iter c ≠ []) as Hit.
  { apply iterate_nonempty. rewrite Hm. apply cascade_nonempty. }
  destruct (max_key_spec (P corpus) _ (λ x, P_ok corpus x Hne) _ Hit)
    as (r & Hr & Hin & Hmax).
  exists c, l2, r. unfold correction. rewrite Hc. cbn.
  repeat split; [done|done|done|by apply elem_of_iterate|].
  intros x Hx. by apply Hmax, elem_of_iterate.
Qed.

End CorrectorFacts.

(** * The claims *)

(** A small corpus and an iteration order ([elements]) for the concrete
    instances below. *)
Lemma elements_order (s : gset word) : elements s ≡ₚ elements s.
Proof. reflexivity. Defined.

Lemma letters_digit_1 : "1"%char ∉ letters.
Proof.
  intros H. apply list_elem_of_In in H.
  repeat (destruct H as [H|H]; [discriminate H|]). exact H.
Qed.

Lemma no_edit_keeps_digit_1 : ¬ primitive_edit (str "1") (str "1").
Proof.
  intros H.
  inversion H as [L c R H1 H2|L a b R H1 H2|L a c R Hc H1 H2|L c R Hc H1 H2].
  - apply (f_equal length) in H1, H2. rewrite length_app in H1, H2.
    cbn in H1, H2. lia.
  - apply (f_equal length) in H1. rewrite length_app in H1. cbn in H1. lia.
  - destruct L as [|x [|y L]]; cbn in H1, H2; [|by destruct R|done].
    injection H2 as -> _. by apply letters_digit_1.
  - apply (f_equal length) in H1, H2. rewrite length_app in H1, H2.
    cbn in H1, H2. lia.
Qed.

Lemma no_edit_keeps_empty : ¬ primitive_edit [] [].
Proof.
  intros H.
  inversion H as [L c R H1 H2|L a b R H1 H2|L a c R Hc H1 H2|L c R Hc H1 H2];
    first
      [ by destruct L
      | apply (f_equal length) in H2; rewrite !length_app in H2;
        cbn in H2; lia ].
Qed.

(** The statements below are about any corpus and any iteration order of
    sets.  Those that run [P] ask for a corpus with at least one token: [P]
    divides by [float(N)], and the module's own start-up check
    [sum(WORDS.values()) == 1115585] pins [N] to a positive number (see
    [P_empty_corpus] for the other case). *)

Section Claims.
Variable corpus : list word.
Variable set_iter : gset word → list word.
Hypothesis set_iter_perm : ∀ s, set_iter s ≡ₚ elements s.

(** C1. [candidate] is a strict fallback cascade with a non-empty result:
    a known word gives exactly [{word}]; otherwise the known distance-1
    edits when there are any; otherwise the known distance-2 edits when
    there are any; otherwise [word] alone. *)
Theorem candidate_cascade (w : word) :
  ∃ c e1 e2,
    candidate corpus set_iter w = Ok c
    ∧ edits1 w = Ok e1
    ∧ edits2 set_iter w = Ok e2
    ∧ members c ≠ ∅
    ∧ (w ∈ dom (WORDS corpus) → members c = {[w]})
    ∧ (w ∉ dom (WORDS corpus) →
       e1 ∩ dom (WORDS corpus) ≠ ∅ →
       members c = e1 ∩ dom (WORDS corpus))
    ∧ (w ∉ dom (WORDS corpus) →
       e1 ∩ dom (WORDS corpus) = ∅ →
       list_to_set e2 ∩ dom (WORDS corpus) ≠ ∅ →
       members c = list_to_set e2 ∩ dom (WORDS corpus))
    ∧ (w ∉ dom (WORDS corpus) →
       e1 ∩ dom (WORDS corpus) = ∅ →
       list_to_set e2 ∩ dom (WORDS corpus) = ∅ →
       members c = {[w]}).
Proof using set_iter_perm.
  destruct (candidate_ok corpus set_iter set_iter_perm w)
    as (c & e2 & Hc & He2 & Hm).
  exists c, (list_to_set (edits1_list w)), e2.
  split; [done|]. split; [apply edits1_ok|]. split; [done|].
  split; [rewrite Hm; apply cascade_nonempty|].
  rewrite Hm. unfold cascade.
  repeat split; intros; repeat case_decide; done.
Qed.

(** C2. [correction w] is a member of the candidate collection of [w] whose
    probability is maximal: no member of the collection has a greater
    one. *)
Theorem correction_max_probability (w : word) :
  corpus ≠ [] →
  ∃ c r pr,
    candidate corpus set_iter w = Ok c
    ∧ correction corpus set_iter w = Ok r
    ∧ r ∈ members c
    ∧ P corpus r = Ok pr
    ∧ ∀ x, x ∈ members c → ∃ px, P corpus x = Ok px ∧ (px ≤ pr)%Qc.
Proof using set_iter_perm.
  intros Hne.
  destruct (correction_ok corpus set_iter set_iter_perm w Hne)
    as (c & l2 & r & Hc & _ & _ & Hr & Hin & Hmax).
  exists c, r, (ratio (default 0%Z (WORDS corpus !! r)) (N corpus)).
  repeat split; [done|done|done|by apply P_ok|].
  intros x Hx. eexists. split; [by apply P_ok|by apply Hmax].
Qed.

(** C3. Known words are fixed points: for every key [w] of the table,
    [correction w] is [w]. *)
Theorem correction_known (w : word) :
  w ∈ dom (WORDS corpus) → correction corpus set_iter w = Ok w.
Proof using set_iter_perm.
  intros Hw.
  pose proof (known_word_corpus_nonempty corpus w Hw) as Hne.
  destruct (correction_ok corpus set_iter set_iter_perm w Hne)
    as (c & l2 & r & _ & _ & Hm & Hr & Hin & _).
  rewrite Hm in Hin. unfold cascade in Hin.
  rewrite decide_True in Hin by done.
  apply elem_of_singleton in Hin. by subst r.
Qed.

(** C4. [P w] is the count of [w] divided by the total token count when
    [w] is a key of the table, and zero when [w] is absent; an absent
    word raises nothing. *)
Theorem P_count_over_total (w : word) :
  corpus ≠ [] →
  N corpus = Z.of_nat (length corpus)
  ∧ (w ∈ dom (WORDS corpus) →
     WORDS corpus !! w = Some (Z.of_nat (occurrences w corpus))
     ∧ P corpus w = Ok (ratio (Z.of_nat (occurrences w corpus)) (N corpus)))
  ∧ (w ∉ dom (WORDS corpus) → P corpus w = Ok 0%Qc).
Proof.
  intros Hne. split; [apply N_length|]. rewrite (P_ok corpus w Hne). split.
  - intros [count Hcount]%elem_of_dom.
    pose proof (lookup_WORDS corpus w count Hcount) as ->.
    by rewrite Hcount.
  - intros Hw%not_elem_of_dom. rewrite Hw. cbn [default from_option].
    unfold ratio, Qcdiv. by rewrite Z2Qc_inj_0, Qcmult_0_l.
Qed.

(** C5 (amended). Deletion results are produced from every split, the
    empty-right one included, so a word of length [n] yields exactly
    [n + 1] of them, and the deduplicated [edits1] set has size at most
    [(n + 1) + (n - 1) + 26 n + 26 (n + 1)]. *)
Theorem edits1_size_bound (w : word) :
  length (get_deletes (get_splits w)) = length w + 1
  ∧ ∃ s, edits1 w = Ok s
         ∧ size s ≤ (length w + 1) + (length w - 1)
                    + 26 * length w + 26 * (length w + 1).
Proof.
  split; [apply length_get_deletes|].
  exists (list_to_set (edits1_list w)). split; [apply edits1_ok|].
  etrans; [apply size_list_to_set_le|].
  by rewrite length_edits1_list.
Qed.

(** C6 (amended). Every member of [edits1 w] differs from [w] by at most
    one primitive operation, and [w] itself is always a member, whether
    or not an edit reproduces it. *)
Theorem edits1_within_one_edit (w : word) :
  ∃ s, edits1 w = Ok s
       ∧ (∀ e, e ∈ s → e = w ∨ primitive_edit w e)
       ∧ w ∈ s.
Proof.
  exists (list_to_set (edits1_list w)). split; [apply edits1_ok|]. split.
  - intros e He. by apply elem_of_list_to_set, elem_of_edits1_list in He.
  - apply elem_of_list_to_set, elem_of_edits1_list. by left.
Qed.

(** C7. The elements yielded by [edits2 w] are exactly the set union of
    [edits1] applied to every member of [edits1 w]. *)
Theorem edits2_is_union (w : word) :
  ∃ l u, edits2 set_iter w = Ok l
         ∧ edits2_union w = Ok u
         ∧ list_to_set l = u.
Proof using set_iter_perm.
  eexists _, _. split; [apply (edits2_ok set_iter)|].
  split; [apply edits2_union_ok|].
  apply set_eq. intros e.
  rewrite elem_of_list_to_set, list_elem_of_join, elem_of_union_list.
  split.
  - intros (es & He & (e1 & -> & He1)%list_elem_of_fmap).
    apply (elem_of_set_iter set_iter set_iter_perm) in He, He1.
    exists (list_to_set (edits1_list e1)). split; [|done].
    apply list_elem_of_fmap. exists e1. by rewrite elem_of_elements.
  - intros (X & (e1 & -> & He1)%list_elem_of_fmap & He).
    apply elem_of_elements in He1.
    exists (set_iter (list_to_set (edits1_list e1))).
    split; [by apply (elem_of_set_iter set_iter set_iter_perm)|].
    apply list_elem_of_fmap. exists e1. split; [done|].
    by apply (elem_of_set_iter set_iter set_iter_perm).
Qed.

(** C8. [correction] is total: for every word, the empty word included,
    [edits1], [edits2], [candidate] and [correction] all return a value
    and no exception is raised. *)
Theorem correction_total (w : word) :
  corpus ≠ [] →
  (∃ s, edits1 w = Ok s)
  ∧ (∃ l, edits2 set_iter w = Ok l)
  ∧ (∃ c, candidate corpus set_iter w = Ok c)
  ∧ (∃ r, correction corpus set_iter w = Ok r).
Proof using set_iter_perm.
  intros Hne.
  destruct (correction_ok corpus set_iter set_iter_perm w Hne)
    as (c & l2 & r & Hc & Hl2 & _ & Hr & _).
  repeat split; [|by exists l2|by exists c|by exists r].
  eexists. apply edits1_ok.
Qed.

(** C9. Every word, the empty word included, is a member of its own
    [edits1] set. *)
Theorem edits1_contains_word (w : word) :
  ∃ s, edits1 w = Ok s ∧ w ∈ s.
Proof.
  exists (list_to_set (edits1_list w)). split; [apply edits1_ok|].
  apply elem_of_list_to_set, edits1_list_self.
Qed.

(** C10. [correction w] is a key of the table or [w] itself. *)
Theorem correction_known_or_same (w : word) :
  corpus ≠ [] →
  ∃ r, correction corpus set_iter w = Ok r
       ∧ (r ∈ dom (WORDS corpus) ∨ r = w).
Proof using set_iter_perm.
  intros Hne.
  destruct (correction_ok corpus set_iter set_iter_perm w Hne)
    as (c & l2 & r & _ & _ & Hm & Hr & Hin & _).
  exists r. split; [done|].
  rewrite Hm in Hin. apply cascade_subseteq in Hin.
  apply elem_of_union in Hin as [Hin|Hin%elem_of_singleton];
    [by left|by right].
Qed.

End Claims.

(** ** Concrete instances *)

Lemma sample_corpus_nonempty : sample_corpus ≠ [].
Proof. intros H. vm_compute in H. discriminate H. Defined.

Lemma sample_corpus_knows_ab : str "ab" ∈ dom (WORDS sample_corpus).
Proof. vm_compute. reflexivity. Defined.

Lemma candidate_cascade_witness :
  (∀ s : gset word, elements s ≡ₚ elements s)
  ∧ ∃ c e1 e2,
      candidate sample_corpus elements (str "") = Ok c
      ∧ edits1 (str "") = Ok e1
      ∧ edits2 elements (str "") = Ok e2
      ∧ members c ≠ ∅
      ∧ (str "" ∈ dom (WORDS sample_corpus) → members c = {[str ""]})
      ∧ (str "" ∉ dom (WORDS sample_corpus) →
         e1 ∩ dom (WORDS sample_corpus) ≠ ∅ →
         members c = e1 ∩ dom (WORDS sample_corpus))
      ∧ (str "" ∉ dom (WORDS sample_corpus) →
         e1 ∩ dom (WORDS sample_corpus) = ∅ →
         list_to_set e2 ∩ dom (WORDS sample_corpus) ≠ ∅ →
         members c = list_to_set e2 ∩ dom (WORDS sample_corpus))
      ∧ (str "" ∉ dom (WORDS sample_corpus) →
         e1 ∩ dom (WORDS sample_corpus) = ∅ →
         list_to_set e2 ∩ dom (WORDS sample_corpus) = ∅ →
         members c = {[str ""]}).
Proof.
  split; [exact elements_order|].
  exact (candidate_cascade sample_corpus elements elements_order (str "")).
Defined.

Lemma correction_max_probability_witness :
  (∀ s : gset word, elements s ≡ₚ elements s)
  ∧ sample_corpus ≠ []
  ∧ ∃ c r pr,
      candidate sample_corpus elements (str "b") = Ok c
      ∧ correction sample_corpus elements (str "b") = Ok r
      ∧ r ∈ members c
      ∧ P sample_corpus r = Ok pr
      ∧ ∀ x, x ∈ members c →
          ∃ px, P sample_corpus x = Ok px ∧ (px ≤ pr)%Qc.
Proof.
  split; [exact elements_order|]. split; [exact sample_corpus_nonempty|].
  exact (correction_max_probability sample_corpus elements elements_order
           (str "b") sample_corpus_nonempty).
Defined.

Lemma correction_known_witness :
  (∀ s : gset word, elements s ≡ₚ elements s)
  ∧ str "ab" ∈ dom (WORDS sample_corpus)
  ∧ correction sample_corpus elements (str "ab") = Ok (str "ab").
Proof.
  split; [exact elements_order|]. split; [exact sample_corpus_knows_ab|].
  exact (correction_known sample_corpus elements elements_order
           (str "ab") sample_corpus_knows_ab).
Defined.

Lemma P_count_over_total_witness :
  sample_corpus ≠ []
  ∧ N sample_corpus = Z.of_nat (length sample_corpus)
  ∧ (str "ab" ∈ dom (WORDS sample_corpus) →
     WORDS sample_corpus !! str "ab"
       = Some (Z.of_nat (occurrences (str "ab") sample_corpus))
     ∧ P sample_corpus (str "ab")
       = Ok (ratio (Z.of_nat (occurrences (str "ab") sample_corpus))
               (N sample_corpus)))
  ∧ (str "ab" ∉ dom (WORDS sample_corpus) →
     P sample_corpus (str "ab") = Ok 0%Qc).
Proof.
  split; [exact sample_corpus_nonempty|].
  exact (P_count_over_total sample_corpus (str "ab") sample_corpus_nonempty).
Defined.

Lemma edits2_is_union_witness :
  (∀ s : gset word, elements s ≡ₚ elements s)
  ∧ ∃ l u, edits2 elements (str "") = Ok l
           ∧ edits2_union (str "") = Ok u
           ∧ list_to_set l = u.
Proof.
  split; [exact elements_order|].
  exact (edits2_is_union elements elements_order (str "")).
Defined.

Lemma correction_total_witness :
  (∀ s : gset word, elements s ≡ₚ elements s)
  ∧ sample_corpus ≠ []
  ∧ (∃ s, edits1 (str "") = Ok s)
  ∧ (∃ l, edits2 elements (str "") = Ok l)
  ∧ (∃ c, candidate sample_corpus elements (str "") = Ok c)
  ∧ (∃ r, correction sample_corpus elements (str "") = Ok r).
Proof.
  split; [exact elements_order|]. split; [exact sample_corpus_nonempty|].
  exact (correction_total sample_corpus elements elements_order
           (str "") sample_corpus_nonempty).
Defined.

Lemma correction_known_or_same_witness :
  (∀ s : gset word, elements s ≡ₚ elements s)
  ∧ sample_corpus ≠ []
  ∧ ∃ r, correction sample_corpus elements (str "zzzz") = Ok r
         ∧ (r ∈ dom (WORDS sample_corpus) ∨ r = str "zzzz").
Proof.
  split; [exact elements_order|]. split; [exact sample_corpus_nonempty|].
  exact (correction_known_or_same sample_corpus elements elements_order
           (str "zzzz") sample_corpus_nonempty).
Defined.

(** The cascade run on the sample corpus: the empty word is corrected
    through its distance-2 edits, a digit reaches a known word the same way,
    and the first item of maximal probability wins. *)
Example correction_sample_empty_word :
  correction sample_corpus elements (str "") = Ok (str "ab").
Proof. vm_compute. reflexivity. Qed.

Example correction_sample_one_edit :
  correction sample_corpus elements (str "b") = Ok (str "ab").
Proof. vm_compute. reflexivity. Qed.

Example P_sample_known : P sample_corpus (str "ab") = Ok (ratio 2 3).
Proof. vm_compute. reflexivity. Qed.

Example P_sample_unseen : P sample_corpus (str "zz") = Ok 0%Qc.
Proof.
  rewrite P_ok by apply sample_corpus_nonempty.
  f_equal. apply Qc_is_canon. vm_compute. reflexivity.
Qed.

(** The empty word has the single split [("", "")]: one no-op deletion, no
    transposition, no replacement, and the 26 one-letter insertions. *)
Example edits_of_empty_word :
  get_deletes (get_splits []) = [[]]
  ∧ get_transposes (get_splits []) = Ok []
  ∧ get_replaces (get_splits []) = []
  ∧ get_inserts (get_splits []) = (λ c, [c]) <$> letters.
Proof. repeat split. Qed.

(** A one-letter word has no transposition. *)
Example transposes_of_one_letter :
  get_transposes (get_splits (str "a")) = Ok [].
Proof. reflexivity. Qed.

(** ** Where the stated claims fail *)

(** C5 as stated: at the one-character word ["1"] the deletion list has two
    entries, not one, and the [edits1] set has 80 members, more than
    [n + (n - 1) + 26 n + 26 (n + 1) = 79]. *)
Lemma deletes_count_counterexample :
  length (get_deletes (get_splits (str "1"))) ≠ length (str "1")
  ∧ ∃ s, edits1 (str "1") = Ok s
         ∧ ¬ size s ≤ length (str "1") + (length (str "1") - 1)
                      + 26 * length (str "1")
                      + 26 * (length (str "1") + 1).
Proof.
  split; [vm_compute; lia|].
  exists (list_to_set (edits1_list (str "1"))). split; [apply edits1_ok|].
  assert (size (list_to_set (edits1_list (str "1")) : gset word) = 80) as ->
    by (vm_compute; reflexivity).
  cbn. lia.
Qed.

(** C6 as stated: ["1"] is a member of [edits1 "1"] although no primitive
    operation turns ["1"] into itself, and the empty word is a member of its
    own [edits1] set although no primitive operation yields the empty word;
    the membership is not a coincidence of some edit reproducing the word. *)
Lemma required_member_counterexample :
  (∃ s, edits1 (str "1") = Ok s
        ∧ str "1" ∈ s
        ∧ ¬ primitive_edit (str "1") (str "1"))
  ∧ (∃ s, edits1 [] = Ok s ∧ [] ∈ s ∧ ¬ primitive_edit [] []).
Proof.
  split.
  - exists (list_to_set (edits1_list (str "1"))). split; [apply edits1_ok|].
    split; [|exact no_edit_keeps_digit_1].
    apply elem_of_list_to_set, edits1_list_self.
  - exists (list_to_set (edits1_list [])). split; [apply edits1_ok|].
    split; [|exact no_edit_keeps_empty].
    apply elem_of_list_to_set, edits1_list_self.
Qed.

(** * The rest of the module *)

(** ** Checks against the docstrings and the unit tests *)

Example words_docstring :
  words ascii_lower ascii_is_word (str "It was a dark and stormy night") =
  str <$> ["it"; "was"; "a"; "dark"; "and"; "stormy"; "night"]%string.
Proof. vm_compute. reflexivity. Qed.

Example words_unit_test :
  words ascii_lower ascii_is_word (str "This is a TEST.") =
  str <$> ["this"; "is"; "a"; "test"]%string.
Proof. vm_compute. reflexivity. Qed.

Example build_word_dict_unit_test :
  build_word_dict ascii_lower ascii_is_word
    (str "This is a test. 123; A TEST this is.") =
  list_to_map [(str "123", 1%Z); (str "a", 2%Z); (str "is", 2%Z);
               (str "test", 2%Z); (str "this", 2%Z)].
Proof. vm_compute. reflexivity. Qed.

Example get_longest_docstring :
  get_longest (str <$> ["beta"; "tau"; "pi"; "omega"]%string)
  = Ok (str "omega").
Proof. reflexivity. Qed.

(** ** The tokenizer *)

Section TokenizerFacts.
Variable lower : word → word.
Variable is_word : ascii → bool.

Lemma word_run_app (s : word) :
  (word_run is_word s).1 ++ (word_run is_word s).2 = s.
Proof.
  induction s as [|c s IH]; [done|]. cbn [word_run].
  destruct (is_word c); [|done].
  destruct (word_run is_word s) as [run rest]. cbn in *. by rewrite IH.
Qed.

Lemma word_run_all_word (s : word) (c : ascii) :
  c ∈ (word_run is_word s).1 → is_word c = true.
Proof.
  induction s as [|d s IH]; cbn [word_run]; [by intros ?%elem_of_nil|].
  destruct (is_word d) eqn:Hd; [|by intros ?%elem_of_nil].
  destruct (word_run is_word s) as [run rest]. cbn in *.
  intros [->|Hc]%elem_of_cons; [done|by apply IH].
Qed.

Lemma word_run_rest_length (s : word) :
  length (word_run is_word s).2 ≤ length s.
Proof.
  rewrite <- (word_run_app s) at 2. rewrite length_app. lia.
Qed.

(** A run stops at the first character that is not a word character. *)
Lemma word_run_stop (a b : word) (c : ascii) :
  is_word c = false →
  word_run is_word (a ++ c :: b) =
  ((word_run is_word a).1, (word_run is_word a).2 ++ c :: b).
Proof.
  intros Hc. induction a as [|d a IH]; cbn [word_run app].
  - by rewrite Hc.
  - destruct (is_word d); [|done]. rewrite IH.
    by destruct (word_run is_word a).
Qed.

Lemma word_run_whole (t : word) :
  (∀ c, c ∈ t → is_word c = true) → word_run is_word t = (t, []).
Proof.
  induction t as [|c t IH]; intros Ht; [done|]. cbn [word_run].
  rewrite (Ht c) by left. rewrite IH; [done|].
  intros d Hd. apply Ht. by right.
Qed.

Lemma findall_from_enough (fuel1 fuel2 : nat) (s : word) :
  length s ≤ fuel1 → length s ≤ fuel2 →
  findall_from is_word fuel1 s = findall_from is_word fuel2 s.
Proof.
  revert fuel2 s. induction fuel1 as [|fuel1 IH]; intros fuel2 s H1 H2.
  - destruct s; [by destruct fuel2|cbn in H1; lia].
  - destruct s as [|c s]; [by destruct fuel2|].
    destruct fuel2 as [|fuel2]; [cbn in H2; lia|].
    cbn [findall_from length] in *.
    destruct (is_word c) eqn:Hc.
    + pose proof (word_run_rest_length (c :: s)) as Hlen.
      destruct (word_run is_word (c :: s)) as [run rest] eqn:Hrun.
      f_equal. apply IH.
      all: pose proof (word_run_app (c :: s)) as Happ;
        rewrite Hrun in Happ; cbn [fst snd] in Happ;
        apply (f_equal length) in Happ; rewrite length_app in Happ;
        cbn [word_run] in Hrun; rewrite Hc in Hrun;
        destruct (word_run is_word s); injection Hrun as <- <-;
        cbn [length] in Happ; lia.
    + apply IH; lia.
Qed.

Lemma findall_nil : findall is_word [] = [].
Proof. done. Qed.

Lemma findall_skip (c : ascii) (s : word) :
  is_word c = false → findall is_word (c :: s) = findall is_word s.
Proof. intros Hc. unfold findall. cbn [length findall_from]. by rewrite Hc. Qed.

Lemma findall_match (c : ascii) (s : word) :
  is_word c = true →
  findall is_word (c :: s) =
  (c :: (word_run is_word s).1) :: findall is_word (word_run is_word s).2.
Proof.
  intros Hc. unfold findall. cbn [length findall_from word_run]. rewrite Hc.
  pose proof (word_run_rest_length s).
  destruct (word_run is_word s) as [run rest]. cbn [fst snd] in *.
  f_equal. by apply findall_from_enough.
Qed.

(** Induction along the scan. *)
Lemma findall_ind (Q : word → list word → Prop) :
  Q [] [] →
  (∀ c s, is_word c = false →
     Q s (findall is_word s) → Q (c :: s) (findall is_word s)) →
  (∀ c s, is_word c = true →
     Q (word_run is_word s).2 (findall is_word (word_run is_word s).2) →
     Q (c :: s)
       ((c :: (word_run is_word s).1)
        :: findall is_word (word_run is_word s).2)) →
  ∀ s, Q s (findall is_word s).
Proof.
  intros Hnil Hskip Hmatch s.
  remember (length s) as n eqn:Hn. revert s Hn.
  induction n as [n IH] using lt_wf_ind. intros s ->.
  destruct s as [|c s]; [exact Hnil|].
  destruct (is_word c) eqn:Hc.
  - rewrite findall_match by done. apply Hmatch; [done|].
    apply (IH (length (word_run is_word s).2)); [|done].
    pose proof (word_run_rest_length s). cbn [length]. lia.
  - rewrite findall_skip by done. apply Hskip; [done|].
    apply (IH (length s)); [cbn [length]; lia|done].
Qed.

Lemma findall_tokens (s : word) (t : word) :
  t ∈ findall is_word s → t ≠ [] ∧ ∀ c, c ∈ t → is_word c = true.
Proof.
  revert t. pattern s, (findall is_word s). apply findall_ind; clear s.
  - by intros t ?%elem_of_nil.
  - done.
  - intros c s Hc IH t [->|Ht]%elem_of_cons; [|by apply IH].
    split; [done|]. intros d [->|Hd]%elem_of_cons; [done|].
    by apply word_run_all_word in Hd.
Qed.

Lemma filter_all_true (l : word) :
  (∀ c, c ∈ l → is_word c = true) → filter (λ c, is_word c = true) l = l.
Proof.
  induction l as [|c l IH]; intros Hl; [done|].
  rewrite filter_cons, decide_True by (apply Hl; by left).
  rewrite IH; [done|]. intros d Hd. apply Hl. by right.
Qed.

Lemma findall_mjoin (s : word) :
  mjoin (findall is_word s) = filter (λ c, is_word c = true) s.
Proof.
  pattern s, (findall is_word s). apply findall_ind; clear s.
  - done.
  - intros c s Hc IH. rewrite filter_cons, decide_False; [done|].
    by rewrite Hc.
  - intros c s Hc IH. rewrite filter_cons, decide_True by done.
    change (mjoin (?x :: ?l)) with (x ++ mjoin l). rewrite IH.
    cbn [app]. f_equal.
    rewrite <- (word_run_app s) at 3. rewrite filter_app. f_equal.
    symmetry. apply filter_all_true. apply word_run_all_word.
Qed.

Lemma findall_separator (a b : word) (c : ascii) :
  is_word c = false →
  findall is_word (a ++ c :: b) = findall is_word a ++ findall is_word b.
Proof.
  intros Hc. pattern a, (findall is_word a). apply findall_ind; clear a.
  - cbn [app]. by apply findall_skip.
  - intros d a Hd IH. cbn [app]. by rewrite findall_skip.
  - intros d a Hd IH. cbn [app]. rewrite findall_match by done.
    rewrite word_run_stop by done. cbn [fst snd]. by rewrite IH.
Qed.

Lemma findall_token (t : word) :
  t ≠ [] → (∀ c, c ∈ t → is_word c = true) → findall is_word t = [t].
Proof.
  destruct t as [|c t]; [done|]. intros _ Ht.
  rewrite findall_match by (apply Ht; by left).
  rewrite word_run_whole; [done|]. intros d Hd. apply Ht. by right.
Qed.

Lemma findall_join (sep : ascii) (ts : list word) :
  is_word sep = false →
  (∀ t, t ∈ ts → t ≠ [] ∧ ∀ c, c ∈ t → is_word c = true) →
  findall is_word (join sep ts) = ts.
Proof.
  intros Hsep. induction ts as [|t ts IH]; intros Hts; [done|].
  destruct (Hts t) as [Hne Hall]; [by left|].
  destruct ts as [|t' ts]; [by apply findall_token|].
  cbn [join]. cbn [join] in IH. rewrite findall_separator by done.
  rewrite findall_token by done. rewrite IH; [done|].
  intros u Hu. apply Hts. by right.
Qed.

End TokenizerFacts.

(** ** More on the edit generator *)

Lemma get_splits_lookup (w : word) (i : nat) :
  i ≤ length w → get_splits w !! i = Some (take i w, drop i w).
Proof.
  intros Hi. unfold get_splits.
  rewrite list_lookup_fmap, lookup_seq_lt by lia. done.
Qed.

Lemma get_splits_NoDup (w : word) : NoDup (get_splits w).
Proof.
  unfold get_splits. apply NoDup_fmap_2_strong; [|apply NoDup_seq].
  intros i j [_ Hi]%elem_of_seq [_ Hj]%elem_of_seq [= Htake _].
  apply (f_equal length) in Htake. rewrite !length_take in Htake. lia.
Qed.

Lemma get_splits_snoc (w : word) :
  get_splits w =
  ((λ i, (take i w, drop i w)) <$> seq 0 (length w)) ++ [(w, [])].
Proof.
  unfold get_splits. rewrite Nat.add_1_r, seq_S, fmap_app. cbn.
  by rewrite firstn_all, drop_all.
Qed.

Lemma primitive_edit_length (w e : word) :
  primitive_edit w e →
  length e + 1 = length w ∨ length e = length w ∨ length e = length w + 1.
Proof.
  intros [L c R|L a b R|L a c R Hc|L c R Hc];
    rewrite !length_app; cbn [length]; lia.
Qed.

Lemma edits1_list_length (w e : word) :
  e ∈ edits1_list w → length w - 1 ≤ length e ≤ length w + 1.
Proof.
  intros [->|He%primitive_edit_length]%elem_of_edits1_list; lia.
Qed.

(** X1. [get_splits w] lists every way of cutting [w] in two exactly once,
    in the order of the length of the left part: [len(w) + 1] pairs, no
    pair twice, and a pair is listed exactly when its parts concatenate to
    [w]. *)
Theorem get_splits_exact (w : word) :
  length (get_splits w) = length w + 1
  ∧ NoDup (get_splits w)
  ∧ (∀ L R, (L, R) ∈ get_splits w ↔ L ++ R = w)
  ∧ (∀ i L R, get_splits w !! i = Some (L, R) → length L = i).
Proof.
  split; [apply length_get_splits|]. split; [apply get_splits_NoDup|].
  split; [intros L R; apply elem_of_get_splits|].
  intros i L R Hi.
  assert (i ≤ length w) as Hle.
  { apply lookup_lt_Some in Hi. rewrite length_get_splits in Hi. lia. }
  rewrite get_splits_lookup in Hi by done. injection Hi as <- _.
  by apply length_take_le.
Qed.

(** X2. [get_deletes(get_splits(w))] is, for each position [i] of [w] in
    turn, [w] with the character at [i] removed, followed by [w] itself
    (the contribution of the empty-right split). *)
Theorem get_deletes_structure (w : word) :
  get_deletes (get_splits w) =
  ((λ i, delete i w) <$> seq 0 (length w)) ++ [w].
Proof.
  rewrite get_splits_snoc. unfold get_deletes. rewrite fmap_app.
  cbn [fmap list_fmap drop]. rewrite app_nil_r. f_equal.
  rewrite <- list_fmap_compose. apply list_fmap_ext.
  intros _ i _. cbn. by rewrite drop_drop, delete_take_drop, Nat.add_1_r.
Qed.

(** X3. [get_transposes] never raises; on the splits of [w] it returns
    [len(w) - 1] words (none for a word shorter than two characters), each
    a rearrangement of the characters of [w]. *)
Theorem get_transposes_rearrange (w : word) :
  ∃ ts, get_transposes (get_splits w) = Ok ts
        ∧ length ts = length w - 1
        ∧ ∀ e, e ∈ ts → e ≡ₚ w.
Proof.
  exists (transposes_list (get_splits w)).
  split; [apply get_transposes_ok|]. split; [apply length_transposes_list|].
  intros e (L & a & b & R & <- & ->)%elem_of_transposes_list.
  apply Permutation_app_head, Permutation_swap.
Qed.

(** X4. The results of [get_replaces] on the splits of [w] are exactly the
    words obtained by overwriting one position of [w] with a letter of the
    alphabet; there are [26 * len(w)] of them, none for the empty word. *)
Theorem get_replaces_overwrite (w : word) :
  length (get_replaces (get_splits w)) = 26 * length w
  ∧ ∀ e, e ∈ get_replaces (get_splits w) ↔
         ∃ i c, i < length w ∧ c ∈ letters ∧ e = <[i := c]> w.
Proof.
  split; [apply length_get_replaces|]. intros e.
  rewrite elem_of_get_replaces. split.
  - intros (L & a & c & R & <- & Hc & ->). exists (length L), c.
    split; [rewrite length_app; cbn; lia|]. split; [done|].
    by rewrite insert_app_r_alt, Nat.sub_diag by lia.
  - intros (i & c & Hi & Hc & ->).
    destruct (lookup_lt_is_Some_2 w i Hi) as [a Ha].
    exists (take i w), a, c, (drop (S i) w).
    split; [by apply take_drop_middle|]. split; [done|].
    by apply insert_take_drop.
Qed.

(** X5. The results of [get_inserts] on the splits of [w] are exactly the
    words that hold a letter of the alphabet at some position and become
    [w] when that position is removed; there are [26 * (len(w) + 1)] of
    them. *)
Theorem get_inserts_undo (w : word) :
  length (get_inserts (get_splits w)) = 26 * (length w + 1)
  ∧ ∀ e, e ∈ get_inserts (get_splits w) ↔
         ∃ i c, e !! i = Some c ∧ c ∈ letters ∧ delete i e = w.
Proof.
  split; [apply length_get_inserts|]. intros e.
  rewrite elem_of_get_inserts. split.
  - intros (L & c & R & <- & Hc & ->). exists (length L), c.
    split; [by rewrite list_lookup_middle|]. split; [done|].
    rewrite delete_take_drop, take_app_length. f_equal.
    rewrite (cons_middle c L R), app_assoc.
    apply drop_app_length'. rewrite length_app. cbn. lia.
  - intros (i & c & Hi & Hc & <-).
    exists (take i e), c, (drop (S i) e).
    split; [by rewrite delete_take_drop|]. split; [done|].
    symmetry. by apply take_drop_middle.
Qed.

Lemma primitive_edit_sym (w e : word) :
  Forall (λ c, c ∈ letters) w → primitive_edit w e → primitive_edit e w.
Proof.
  intros Hw H. destruct H as [L c R|L a b R|L a c R Hc|L c R Hc].
  - apply edit_insert.
    apply Forall_app in Hw as [_ Hw]. by apply Forall_cons in Hw as [? _].
  - apply edit_transpose.
  - apply edit_replace.
    apply Forall_app in Hw as [_ Hw]. by apply Forall_cons in Hw as [? _].
  - apply edit_delete.
Qed.

(** X6. Every member of [edits1 w] is at most one character shorter or
    longer than [w]. *)
Theorem edits1_lengths (w : word) :
  ∃ s, edits1 w = Ok s
       ∧ ∀ e, e ∈ s → length w - 1 ≤ length e ≤ length w + 1.
Proof.
  exists (list_to_set (edits1_list w)). split; [apply edits1_ok|].
  intros e He%elem_of_list_to_set. by apply edits1_list_length.
Qed.

(** X7. On words made of the 26 letters, being one edit away is symmetric:
    if [e] is in [edits1 w] then [w] is in [edits1 e]. *)
Theorem edits1_symmetric (w : word) :
  Forall (λ c, c ∈ letters) w →
  ∃ s, edits1 w = Ok s
       ∧ ∀ e, e ∈ s → ∃ s', edits1 e = Ok s' ∧ w ∈ s'.
Proof.
  intros Hw. exists (list_to_set (edits1_list w)).
  split; [apply edits1_ok|].
  intros e He%elem_of_list_to_set%elem_of_edits1_list.
  exists (list_to_set (edits1_list e)). split; [apply edits1_ok|].
  apply elem_of_list_to_set, elem_of_edits1_list.
  destruct He as [->|He]; [by left|]. right. by apply primitive_edit_sym.
Qed.

Lemma edits1_symmetric_witness :
  Forall (λ c, c ∈ letters) (str "ab")
  ∧ ∃ s, edits1 (str "ab") = Ok s
         ∧ ∀ e, e ∈ s → ∃ s', edits1 e = Ok s' ∧ str "ab" ∈ s'.
Proof.
  assert (Forall (λ c, c ∈ letters) (str "ab")) as Hab.
  { refine (bool_decide_unpack _ _). vm_compute. exact I. }
  split; [exact Hab|]. exact (edits1_symmetric (str "ab") Hab).
Defined.

(** ** Which maximal item wins *)

Section MaxFirst.
Context {A : Type} (key : A → result Qc) (k : A → Qc).
Hypothesis key_ok : ∀ x, key x = Ok (k x).

Lemma max_loop_first (l : list A) (best : A) :
  ∃ r l1 l2, max_loop key best (k best) l = Ok r
             ∧ best :: l = l1 ++ r :: l2
             ∧ (∀ x, x ∈ l1 → (k x < k r)%Qc)
             ∧ (∀ x, x ∈ l2 → (k x ≤ k r)%Qc).
Proof.
  revert best. induction l as [|x l IH]; intros best; cbn [max_loop].
  - exists best, [], []. repeat split; by intros ? ?%elem_of_nil.
  - rewrite key_ok. cbn. case_decide as Hlt.
    + destruct (IH x) as (r & l1 & l2 & Hr & Hsplit & Hbefore & Hafter).
      exists r, (best :: l1), l2. split; [done|].
      split; [by rewrite Hsplit|]. split; [|done].
      intros y [->|Hy]%elem_of_cons; [|by apply Hbefore].
      destruct l1 as [|x' l1]; injection Hsplit as <- _; [done|].
      trans (k x); [done|]. apply Hbefore. by left.
    + apply Qcnot_lt_le in Hlt.
      destruct (IH best) as (r & l1 & l2 & Hr & Hsplit & Hbefore & Hafter).
      destruct l1 as [|b l1]; injection Hsplit as <- ->.
      * exists best, [], (x :: l2). split; [done|]. split; [done|].
        split; [by intros ? ?%elem_of_nil|].
        intros y [->|Hy]%elem_of_cons; [done|by apply Hafter].
      * exists r, (best :: x :: l1), l2. split; [done|]. split; [done|].
        split; [|done].
        assert (k best < k r)%Qc as Hbest by (apply Hbefore; by left).
        intros y [->|[->|Hy]%elem_of_cons]%elem_of_cons; [done| |].
        -- by apply Qcle_lt_trans with (k best).
        -- apply Hbefore. by right.
Qed.

Lemma max_key_first (l : list A) :
  l ≠ [] →
  ∃ r l1 l2, max_key key l = Ok r
             ∧ l = l1 ++ r :: l2
             ∧ (∀ x, x ∈ l1 → (k x < k r)%Qc)
             ∧ (∀ x, x ∈ l2 → (k x ≤ k r)%Qc).
Proof.
  destruct l as [|x l]; [done|]. intros _. cbn [max_key].
  rewrite key_ok. cbn. apply max_loop_first.
Qed.
End MaxFirst.

Lemma longest_loop_first (l : list word) (best : word) :
  ∃ l1 l2, best :: l = l1 ++ longest_loop best l :: l2
           ∧ (∀ x, x ∈ l1 → length x < length (longest_loop best l))
           ∧ (∀ x, x ∈ l2 → length x ≤ length (longest_loop best l)).
Proof.
  revert best. induction l as [|x l IH]; intros best; cbn [longest_loop].
  - exists [], []. repeat split; by intros ? ?%elem_of_nil.
  - case_decide as Hlt.
    + destruct (IH x) as (l1 & l2 & Hsplit & Hbefore & Hafter).
      exists (best :: l1), l2. split; [by rewrite Hsplit|]. split; [|done].
      intros y [->|Hy]%elem_of_cons; [|by apply Hbefore].
      destruct l1 as [|x' l1]; injection Hsplit as Hx _.
      * by rewrite <- Hx.
      * subst x'. pose proof (Hbefore x ltac:(by left)). lia.
    + destruct (IH best) as (l1 & l2 & Hsplit & Hbefore & Hafter).
      destruct l1 as [|b l1]; injection Hsplit as Hb Hl.
      * exists [], (x :: l2). rewrite <- Hb at 1. split; [by rewrite Hl|].
        split; [by intros ? ?%elem_of_nil|].
        intros y [->|Hy]%elem_of_cons; [rewrite <- Hb; lia|by apply Hafter].
      * subst b. exists (best :: x :: l1), l2.
        split; [cbn [app]; do 2 f_equal; exact Hl|].
        split; [|done].
        pose proof (Hbefore best ltac:(by left)).
        intros y [->|[->|Hy]%elem_of_cons]%elem_of_cons; [done|lia|].
        apply Hbefore. by right.
Qed.

(** X8. [get_longest] raises [ValueError] on an empty list and on no other;
    otherwise it returns the first word of maximal length: every word before
    it is strictly shorter and no word after it is longer. *)
Theorem get_longest_first (ws : list word) :
  (get_longest ws = Raise ValueError ↔ ws = [])
  ∧ (ws ≠ [] →
     ∃ r l1 l2, get_longest ws = Ok r
                ∧ ws = l1 ++ r :: l2
                ∧ (∀ x, x ∈ l1 → length x < length r)
                ∧ (∀ x, x ∈ l2 → length x ≤ length r)).
Proof.
  split; [by destruct ws|].
  destruct ws as [|x l]; [done|]. intros _. cbn [get_longest].
  destruct (longest_loop_first l x) as (l1 & l2 & Hsplit & Hbefore & Hafter).
  by exists (longest_loop x l), l1, l2.
Qed.

(** ** More on the frequency table *)

Lemma default_lookup_WORDS (corpus : list word) (w : word) :
  default 0%Z (WORDS corpus !! w) = Z.of_nat (occurrences w corpus).
Proof.
  unfold WORDS, Counter. rewrite lookup_foldl_Counter_add, lookup_empty.
  cbn [default from_option]. lia.
Qed.

Lemma occurrences_le_length (w : word) (l : list word) :
  occurrences w l ≤ length l.
Proof. apply length_filter. Qed.

Lemma occurrences_pos (w : word) (l : list word) :
  0 < occurrences w l ↔ w ∈ l.
Proof.
  induction l as [|x l IH]; [cbn; split; [lia|by intros ?%elem_of_nil]|].
  rewrite occurrences_cons, elem_of_cons. case_decide as Hx.
  - split; [by left; subst|lia].
  - rewrite IH. split; [by right|]. intros [->|?]; done.
Qed.

Lemma lookup_WORDS_occurrences (corpus : list word) (w : word) :
  WORDS corpus !! w =
  if decide (w ∈ corpus) then Some (Z.of_nat (occurrences w corpus)) else None.
Proof.
  case_decide as Hw.
  - assert (w ∈ dom (WORDS corpus)) as [count Hcount]%elem_of_dom
      by (rewrite dom_WORDS; by apply elem_of_list_to_set).
    by rewrite Hcount, (lookup_WORDS corpus w count Hcount).
  - apply not_elem_of_dom. rewrite dom_WORDS. by rewrite elem_of_list_to_set.
Qed.

Lemma occurrences_Permutation (w : word) (l l' : list word) :
  l ≡ₚ l' → occurrences w l = occurrences w l'.
Proof. intros Hl. unfold occurrences. by rewrite Hl. Qed.

Lemma WORDS_Permutation (corpus corpus' : list word) :
  corpus ≡ₚ corpus' → WORDS corpus = WORDS corpus'.
Proof.
  intros Hperm. apply map_eq. intros w.
  rewrite !lookup_WORDS_occurrences.
  rewrite (occurrences_Permutation w _ _ Hperm).
  destruct (decide (w ∈ corpus)) as [Hw|Hw]; rewrite Hperm in Hw.
  - by rewrite decide_True.
  - by rewrite decide_False.
Qed.

Lemma ratio_range (count total : Z) :
  (0 ≤ count ≤ total)%Z → (0 < total)%Z →
  (0 ≤ ratio count total)%Qc ∧ (ratio count total ≤ 1)%Qc
  ∧ ((0 < ratio count total)%Qc ↔ (0 < count)%Z).
Proof.
  intros [Hc0 Hct] Ht. unfold ratio, Qcdiv.
  assert (0 < Qc_of_Z total)%Qc as Htq
    by (rewrite <- Z2Qc_inj_0; exact (proj1 (Z2Qc_inj_lt _ _) Ht)).
  assert (0 ≤ Qc_of_Z count)%Qc as Hcq
    by (rewrite <- Z2Qc_inj_0; exact (proj1 (Z2Qc_inj_le _ _) Hc0)).
  pose proof (Qcinv_pos _ Htq) as Hinv.
  split; [|split].
  - apply Qcmult_nonneg_nonneg; [done|by apply Qclt_le_weak].
  - rewrite <- (Qcmult_inv_r (Qc_of_Z total))
      by (intros Hz; rewrite Hz in Htq; by apply Qclt_not_eq in Htq).
    apply Qcmult_le_mono_nonneg_r; [by apply Qclt_le_weak|].
    exact (proj1 (Z2Qc_inj_le _ _) Hct).
  - split.
    + intros Hpos. destruct (decide (count = 0%Z)) as [->|Hne]; [|lia].
      rewrite Z2Qc_inj_0, Qcmult_0_l in Hpos. by apply Qclt_not_eq in Hpos.
    + intros Hpos. apply Qcmult_pos_pos; [|done].
      rewrite <- Z2Qc_inj_0. exact (proj1 (Z2Qc_inj_lt _ _) Hpos).
Qed.

(** X9. With at least one token in the corpus, [P w] is a number between 0
    and 1, and it is positive exactly when [w] is a key of the table. *)
Theorem P_range (corpus : list word) (w : word) :
  corpus ≠ [] →
  ∃ p, P corpus w = Ok p
       ∧ (0 ≤ p)%Qc ∧ (p ≤ 1)%Qc
       ∧ ((0 < p)%Qc ↔ w ∈ dom (WORDS corpus)).
Proof.
  intros Hne. eexists. split; [by apply P_ok|].
  rewrite default_lookup_WORDS, N_length.
  pose proof (occurrences_le_length w corpus) as Hle.
  assert (0 < length corpus) as Hlen by (destruct corpus; [done|cbn; lia]).
  destruct (ratio_range (Z.of_nat (occurrences w corpus))
              (Z.of_nat (length corpus))) as (H0 & H1 & Hpos); [lia|lia|].
  split; [done|]. split; [done|].
  rewrite Hpos, dom_WORDS, elem_of_list_to_set, <- occurrences_pos. lia.
Qed.

Lemma P_range_witness :
  sample_corpus ≠ []
  ∧ ∃ p, P sample_corpus (str "cd") = Ok p
         ∧ (0 ≤ p)%Qc ∧ (p ≤ 1)%Qc
         ∧ ((0 < p)%Qc ↔ str "cd" ∈ dom (WORDS sample_corpus)).
Proof.
  split; [exact sample_corpus_nonempty|].
  exact (P_range sample_corpus (str "cd") sample_corpus_nonempty).
Defined.

(** X10. [P] raises [ZeroDivisionError] exactly when the corpus has no
    token, whatever the word; it raises nothing else. *)
Theorem P_error (corpus : list word) (w : word) :
  (P corpus w = Raise ZeroDivisionError ↔ corpus = [])
  ∧ ∀ e, P corpus w = Raise e → e = ZeroDivisionError.
Proof.
  destruct (decide (corpus = [])) as [->|Hne].
  - split; [done|]. by intros e [= <-].
  - rewrite P_ok by done. split; [done|]. by intros e.
Qed.

(** ** More on candidates and correction *)

Lemma P_max_key_empty_corpus (l : list word) :
  l ≠ [] → max_key (P []) l = Raise ZeroDivisionError.
Proof. by destruct l. Qed.

Section CorrectionFacts.
Variable corpus : list word.
Variable set_iter : gset word → list word.
Hypothesis set_iter_perm : ∀ s, set_iter s ≡ₚ elements s.

Lemma edits2_superset (w e : word) (l : list word) :
  edits2 set_iter w = Ok l → e ∈ edits1_list w → e ∈ l.
Proof using set_iter_perm.
  intros Hl He. apply (elem_of_edits2 set_iter set_iter_perm w e l Hl).
  exists e. split; [done|apply edits1_list_self].
Qed.

Lemma edits2_length (w e : word) (l : list word) :
  edits2 set_iter w = Ok l → e ∈ l →
  length w - 2 ≤ length e ≤ length w + 2.
Proof using set_iter_perm.
  intros Hl He.
  apply (elem_of_edits2 set_iter set_iter_perm w e l Hl) in He
    as (e1 & He1%edits1_list_length & He%edits1_list_length).
  lia.
Qed.

Lemma correction_of_known (w : word) :
  w ∈ dom (WORDS corpus) → correction corpus set_iter w = Ok w.
Proof using set_iter_perm.
  intros Hw.
  pose proof (known_word_corpus_nonempty corpus w Hw) as Hne.
  destruct (correction_ok corpus set_iter set_iter_perm w Hne)
    as (c & l2 & r & _ & _ & Hm & Hr & Hin & _).
  rewrite Hm in Hin. unfold cascade in Hin.
  rewrite decide_True in Hin by done.
  apply elem_of_singleton in Hin. by subst r.
Qed.

(** X11. Everything [edits1 w] holds is also yielded by [edits2 w], and so
    is [w] itself: the two-edit stage never loses a one-edit candidate. *)
Theorem edits2_contains_edits1 (w : word) :
  ∃ s l, edits1 w = Ok s
         ∧ edits2 set_iter w = Ok l
         ∧ w ∈ l
         ∧ ∀ e, e ∈ s → e ∈ l.
Proof using set_iter_perm.
  destruct (edits2 set_iter w) as [l|] eqn:Hl;
    [|by rewrite edits2_ok in Hl].
  exists (list_to_set (edits1_list w)), l.
  split; [apply edits1_ok|]. split; [done|]. split.
  - apply (edits2_superset w w l Hl), edits1_list_self.
  - intros e He%elem_of_list_to_set. by apply (edits2_superset w e l Hl).
Qed.

(** X12. Every word yielded by [edits2 w] is at most two characters shorter
    or longer than [w]. *)
Theorem edits2_lengths (w : word) :
  ∃ l, edits2 set_iter w = Ok l
       ∧ ∀ e, e ∈ l → length w - 2 ≤ length e ≤ length w + 2.
Proof using set_iter_perm.
  destruct (edits2 set_iter w) as [l|] eqn:Hl;
    [|by rewrite edits2_ok in Hl].
  exists l. split; [done|]. intros e He. by apply (edits2_length w e l Hl).
Qed.

(** X13. [correction] is idempotent: correcting the result of a correction
    gives that result back. *)
Theorem correction_idempotent (w : word) :
  corpus ≠ [] →
  ∃ r, correction corpus set_iter w = Ok r
       ∧ correction corpus set_iter r = Ok r.
Proof using set_iter_perm.
  intros Hne.
  destruct (correction_ok corpus set_iter set_iter_perm w Hne)
    as (c & l2 & r & _ & _ & Hm & Hr & Hin & _).
  exists r. split; [done|].
  rewrite Hm in Hin. apply cascade_subseteq in Hin.
  apply elem_of_union in Hin as [Hin|Hin%elem_of_singleton].
  - by apply correction_of_known.
  - by subst r.
Qed.

(** X14. [correction] returns its input unchanged exactly when the input is
    a key of the table or no key of the table is among the words yielded by
    [edits2]. *)
Theorem correction_unchanged_iff (w : word) :
  corpus ≠ [] →
  ∃ l, edits2 set_iter w = Ok l
       ∧ (correction corpus set_iter w = Ok w ↔
          w ∈ dom (WORDS corpus)
          ∨ list_to_set l ∩ dom (WORDS corpus) = (∅ : gset word)).
Proof using set_iter_perm.
  intros Hne.
  destruct (correction_ok corpus set_iter set_iter_perm w Hne)
    as (c & l & r & _ & Hl & Hm & Hr & Hin & _).
  exists l. split; [done|].
  assert (∀ e, e ∈ (list_to_set (edits1_list w) : gset word)
               → e ∈ (list_to_set l : gset word)) as Hsub.
  { intros e He%elem_of_list_to_set. apply elem_of_list_to_set.
    by apply (edits2_superset w e l Hl). }
  rewrite Hm in Hin. unfold cascade in Hin. rewrite Hr.
  destruct (decide (w ∈ dom (WORDS corpus))) as [Hw|Hw].
  { split; [by left|]. intros _. rewrite <- Hr. by apply correction_of_known. }
  destruct (decide (list_to_set (edits1_list w) ∩ dom (WORDS corpus)
                    ≠ (∅ : gset word))) as [H1|H1].
  { apply elem_of_intersection in Hin as [Hin1 Hink]. split.
    - intros [= ->]. done.
    - intros [?|Hnone]; [done|]. exfalso.
      apply (not_elem_of_empty (C:=gset word) r). rewrite <- Hnone.
      apply elem_of_intersection. split; [by apply Hsub|done]. }
  destruct (decide (list_to_set l ∩ dom (WORDS corpus)
                    ≠ (∅ : gset word))) as [H2|H2].
  { apply elem_of_intersection in Hin as [Hin2 Hink]. split.
    - intros [= ->]. done.
    - intros [?|Hnone]; done. }
  apply elem_of_singleton in Hin. subst r. split; [|done].
  intros _. right.
  destruct (decide (list_to_set l ∩ dom (WORDS corpus) = (∅ : gset word)));
    done.
Qed.

(** X15. Fewer edits win over frequency: when [w] is not a key but some
    word of [edits1 w] is, [correction] returns a key taken from [edits1 w],
    of maximal probability among those, however frequent the keys two edits
    away may be. *)
Theorem correction_prefers_one_edit (w : word) :
  corpus ≠ [] →
  ∃ e1, edits1 w = Ok e1
        ∧ (w ∉ dom (WORDS corpus) →
           e1 ∩ dom (WORDS corpus) ≠ ∅ →
           ∃ r pr, correction corpus set_iter w = Ok r
                   ∧ r ∈ e1 ∧ r ∈ dom (WORDS corpus)
                   ∧ P corpus r = Ok pr
                   ∧ ∀ x, x ∈ e1 → x ∈ dom (WORDS corpus) →
                       ∃ px, P corpus x = Ok px ∧ (px ≤ pr)%Qc).
Proof using set_iter_perm.
  intros Hne. exists (list_to_set (edits1_list w)).
  split; [apply edits1_ok|]. intros Hw H1.
  destruct (correction_ok corpus set_iter set_iter_perm w Hne)
    as (c & l & r & _ & _ & Hm & Hr & Hin & Hmax).
  unfold cascade in Hm.
  rewrite decide_False, decide_True in Hm by done. rewrite Hm in Hin, Hmax.
  apply elem_of_intersection in Hin as [Hin1 Hink].
  exists r, (ratio (default 0%Z (WORDS corpus !! r)) (N corpus)).
  split; [done|]. split; [done|]. split; [done|].
  split; [by apply P_ok|].
  intros x Hx1 Hxk. eexists. split; [by apply P_ok|].
  apply Hmax. by apply elem_of_intersection.
Qed.

(** X16. The result of [correction w] is always among the words yielded by
    [edits2 w], so it is at most two characters shorter or longer than
    [w]. *)
Theorem correction_within_two_edits (w : word) :
  corpus ≠ [] →
  ∃ r l, correction corpus set_iter w = Ok r
         ∧ edits2 set_iter w = Ok l
         ∧ r ∈ l
         ∧ length w - 2 ≤ length r ≤ length w + 2.
Proof using set_iter_perm.
  intros Hne.
  destruct (correction_ok corpus set_iter set_iter_perm w Hne)
    as (c & l & r & _ & Hl & Hm & Hr & Hin & _).
  exists r, l. split; [done|]. split; [done|].
  assert (r ∈ l) as Hrl.
  { rewrite Hm in Hin. unfold cascade in Hin.
    pose proof (edits2_superset w w l Hl (edits1_list_self w)) as Hwl.
    repeat case_decide.
    - apply elem_of_singleton in Hin. by subst r.
    - apply elem_of_intersection in Hin as [Hin%elem_of_list_to_set _].
      by apply (edits2_superset w r l Hl).
    - by apply elem_of_intersection in Hin as [Hin%elem_of_list_to_set _].
    - apply elem_of_singleton in Hin. by subst r. }
  split; [done|]. by apply (edits2_length w r l Hl).
Qed.

(** X17. [correction] raises [ZeroDivisionError] exactly when the corpus
    has no token, whatever the word, and it raises nothing else: no
    [IndexError] from the subscripts, no [ValueError] from [max]. *)
Theorem correction_error (w : word) :
  (correction corpus set_iter w = Raise ZeroDivisionError ↔ corpus = [])
  ∧ ∀ e, correction corpus set_iter w = Raise e → e = ZeroDivisionError.
Proof using set_iter_perm.
  destruct (decide (corpus = [])) as [Hnil|Hne].
  - destruct (candidate_ok corpus set_iter set_iter_perm w)
      as (c & l & Hc & _ & Hm).
    assert (correction corpus set_iter w = Raise ZeroDivisionError) as Hr.
    { unfold correction. rewrite Hc. cbn. rewrite Hnil.
      apply P_max_key_empty_corpus.
      apply (iterate_nonempty set_iter set_iter_perm).
      rewrite Hm. apply cascade_nonempty. }
    rewrite Hr. split; [done|]. by intros e [= <-].
  - destruct (correction_ok corpus set_iter set_iter_perm w Hne)
      as (c & l & r & _ & _ & _ & Hr & _).
    rewrite Hr. split; [done|]. by intros e.
Qed.

(** X18. Ties go to the first: [correction] returns the first candidate, in
    the order in which the candidate collection is iterated, whose
    probability is maximal; every candidate met before it has a strictly
    smaller probability. *)
Theorem correction_first_maximal (w : word) :
  corpus ≠ [] →
  ∃ c r pr l1 l2,
    candidate corpus set_iter w = Ok c
    ∧ correction corpus set_iter w = Ok r
    ∧ P corpus r = Ok pr
    ∧ iterate set_iter c = l1 ++ r :: l2
    ∧ (∀ x, x ∈ l1 → ∃ px, P corpus x = Ok px ∧ (px < pr)%Qc)
    ∧ (∀ x, x ∈ l2 → ∃ px, P corpus x = Ok px ∧ (px ≤ pr)%Qc).
Proof using set_iter_perm.
  intros Hne.
  destruct (candidate_ok corpus set_iter set_iter_perm w)
    as (c & l & Hc & _ & Hm).
  assert (iterate set_iter c ≠ []) as Hit.
  { apply (iterate_nonempty set_iter set_iter_perm).
    rewrite Hm. apply cascade_nonempty. }
  destruct (max_key_first (P corpus) _ (λ x, P_ok corpus x Hne) _ Hit)
    as (r & l1 & l2 & Hr & Hsplit & Hbefore & Hafter).
  exists c, r, (ratio (default 0%Z (WORDS corpus !! r)) (N corpus)), l1, l2.
  split; [done|]. split; [unfold correction; by rewrite Hc|].
  split; [by apply P_ok|]. split; [done|]. split.
  - intros x Hx. eexists. split; [by apply P_ok|by apply Hbefore].
  - intros x Hx. eexists. split; [by apply P_ok|by apply Hafter].
Qed.

End CorrectionFacts.

(** X19. The table, and with it every correction, depends only on how often
    each token occurs in the corpus, not on the order of the tokens. *)
Theorem correction_corpus_order (corpus corpus' : list word)
    (set_iter : gset word → list word) (w : word) :
  corpus ≡ₚ corpus' →
  WORDS corpus = WORDS corpus'
  ∧ P corpus w = P corpus' w
  ∧ correction corpus set_iter w = correction corpus' set_iter w.
Proof.
  intros Hperm%WORDS_Permutation.
  unfold correction, candidate, known, P, N. by rewrite Hperm.
Qed.

(** X20. [candidate_probs] returns one probability per candidate, in order;
    it raises [ZeroDivisionError] exactly when the corpus has no token and
    there is at least one candidate. *)
Theorem candidate_probs_each (corpus cs : list word) :
  (candidate_probs corpus cs = Raise ZeroDivisionError
   ↔ corpus = [] ∧ cs ≠ [])
  ∧ (corpus ≠ [] ∨ cs = [] →
     ∃ ps, candidate_probs corpus cs = Ok ps
           ∧ length ps = length cs
           ∧ ∀ i x, cs !! i = Some x →
               ∃ p, ps !! i = Some p ∧ P corpus x = Ok p).
Proof.
  unfold candidate_probs.
  destruct (decide (corpus = [])) as [->|Hne].
  - destruct cs as [|x cs].
    + split; [split; [done|by intros [_ ?]]|]. intros _.
      exists []. by repeat split.
    + split; [done|]. by intros [?|?].
  - rewrite (comprehend_ok _
      (λ x, ratio (default 0%Z (WORDS corpus !! x)) (N corpus)))
      by (intros x _; by apply P_ok).
    split; [split; [done|by intros [? _]]|]. intros _.
    eexists. split; [done|]. split; [by rewrite length_fmap|].
    intros i x Hx. eexists. rewrite list_lookup_fmap, Hx.
    split; [done|by apply P_ok].
Qed.

(** ** More on the tokenizer and the table it feeds *)

Section TokenizerExtras.
Variable lower : word → word.
Variable is_word : ascii → bool.

(** X21. Every token [words] returns is non-empty and made of word
    characters only. *)
Theorem words_tokens (text : word) :
  Forall (λ t, t ≠ [] ∧ Forall (λ c, is_word c = true) t)
    (words lower is_word text).
Proof.
  apply Forall_forall. intros t Ht. unfold words in Ht.
  apply findall_tokens in Ht as [Hne Hall]. split; [done|].
  by apply Forall_forall.
Qed.

(** X22. [words] loses no word character and keeps their order: the tokens
    laid end to end are the lower-cased text with every other character
    removed. *)
Theorem words_keeps_word_chars (text : word) :
  mjoin (words lower is_word text)
  = filter (λ c, is_word c = true) (lower text).
Proof. apply findall_mjoin. Qed.


(** X24. Tokenizing undoes joining: for non-empty tokens made of word
    characters, joined by a character that is not one, [words] returns the
    tokens back, provided lower-casing leaves the joined text as it is. *)
Theorem words_join (sep : ascii) (ts : list word) :
  is_word sep = false →
  Forall (λ t, t ≠ [] ∧ Forall (λ c, is_word c = true) t) ts →
  lower (join sep ts) = join sep ts →
  words lower is_word (join sep ts) = ts.
Proof.
  intros Hsep Hts Hlower. unfold words. rewrite Hlower.
  apply findall_join; [done|].
  intros t Ht. rewrite Forall_forall in Hts.
  destruct (Hts t Ht) as [Hne Hall]. split; [done|].
  by apply Forall_forall.
Qed.

(** X25. Every key of the table [build_word_dict] builds is a non-empty
    token of word characters, holds the number of times that token occurs in
    the text (at least 1), the empty string is never a key, and the counts
    add up to the number of tokens. *)
Theorem build_word_dict_keys (text : word) :
  map_Forall
    (λ w count,
       w ≠ [] ∧ Forall (λ c, is_word c = true) w
       ∧ (1 ≤ count)%Z
       ∧ count = Z.of_nat (occurrences w (words lower is_word text)))
    (build_word_dict lower is_word text)
  ∧ ([] ∉ dom (build_word_dict lower is_word text))
  ∧ sum_values (build_word_dict lower is_word text)
    = Z.of_nat (length (words lower is_word text)).
Proof.
  unfold build_word_dict. fold (WORDS (words lower is_word text)).
  assert (∀ w, w ∈ dom (WORDS (words lower is_word text)) →
               w ∈ words lower is_word text) as Hdom
    by (intros w; rewrite dom_WORDS; apply elem_of_list_to_set).
  split; [|split].
  - intros w count Hw.
    assert (w ∈ words lower is_word text) as Hin
      by (apply Hdom, elem_of_dom; eauto).
    pose proof (lookup_WORDS _ w count Hw) as Hcount.
    apply findall_tokens in Hin as Htok. destruct Htok as [Hne Hall].
    split; [done|]. split; [by apply Forall_forall|]. split; [|done].
    apply occurrences_pos in Hin. lia.
  - intros Hin%Hdom. by apply findall_tokens in Hin as [? _].
  - apply (N_length (words lower is_word text)).
Qed.

End TokenizerExtras.

(** ** Concrete instances of the properties above *)

Lemma sample_corpus_reordered :
  sample_corpus ≡ₚ str <$> ["cd"; "ab"; "ab"]%string.
Proof.
  exact (Permutation_app_comm (str <$> ["ab"; "ab"]%string) [str "cd"]).
Defined.

Lemma space_not_word : ascii_is_word " "%char = false.
Proof. reflexivity. Defined.

Lemma sample_tokens_well_formed :
  Forall (λ t, t ≠ [] ∧ Forall (λ c, ascii_is_word c = true) t)
    (str <$> ["it"; "was"; "dark"]%string).
Proof.
  repeat (apply Forall_cons; split;
          [split; [discriminate|repeat constructor]|]).
  apply Forall_nil_2.
Defined.

Lemma edits2_contains_edits1_witness :
  (∀ s : gset word, elements s ≡ₚ elements s)
  ∧ ∃ s l, edits1 (str "a") = Ok s
           ∧ edits2 elements (str "a") = Ok l
           ∧ str "a" ∈ l
           ∧ ∀ e, e ∈ s → e ∈ l.
Proof.
  split; [exact elements_order|].
  exact (edits2_contains_edits1 elements elements_order (str "a")).
Defined.

Lemma edits2_lengths_witness :
  (∀ s : gset word, elements s ≡ₚ elements s)
  ∧ ∃ l, edits2 elements (str "a") = Ok l
         ∧ ∀ e, e ∈ l →
             length (str "a") - 2 ≤ length e ≤ length (str "a") + 2.
Proof.
  split; [exact elements_order|].
  exact (edits2_lengths elements elements_order (str "a")).
Defined.

Lemma correction_idempotent_witness :
  (∀ s : gset word, elements s ≡ₚ elements s)
  ∧ sample_corpus ≠ []
  ∧ ∃ r, correction sample_corpus elements (str "b") = Ok r
         ∧ correction sample_corpus elements r = Ok r.
Proof.
  split; [exact elements_order|]. split; [exact sample_corpus_nonempty|].
  exact (correction_idempotent sample_corpus elements elements_order
           (str "b") sample_corpus_nonempty).
Defined.

Lemma correction_unchanged_iff_witness :
  (∀ s : gset word, elements s ≡ₚ elements s)
  ∧ sample_corpus ≠ []
  ∧ ∃ l, edits2 elements (str "b") = Ok l
         ∧ (correction sample_corpus elements (str "b") = Ok (str "b") ↔
            str "b" ∈ dom (WORDS sample_corpus)
            ∨ list_to_set l ∩ dom (WORDS sample_corpus) = (∅ : gset word)).
Proof.
  split; [exact elements_order|]. split; [exact sample_corpus_nonempty|].
  exact (correction_unchanged_iff sample_corpus elements elements_order
           (str "b") sample_corpus_nonempty).
Defined.

Lemma correction_prefers_one_edit_witness :
  (∀ s : gset word, elements s ≡ₚ elements s)
  ∧ sample_corpus ≠ []
  ∧ ∃ e1, edits1 (str "b") = Ok e1
          ∧ (str "b" ∉ dom (WORDS sample_corpus) →
             e1 ∩ dom (WORDS sample_corpus) ≠ ∅ →
             ∃ r pr, correction sample_corpus elements (str "b") = Ok r
                     ∧ r ∈ e1 ∧ r ∈ dom (WORDS sample_corpus)
                     ∧ P sample_corpus r = Ok pr
                     ∧ ∀ x, x ∈ e1 → x ∈ dom (WORDS sample_corpus) →
                         ∃ px, P sample_corpus x = Ok px ∧ (px ≤ pr)%Qc).
Proof.
  split; [exact elements_order|]. split; [exact sample_corpus_nonempty|].
  exact (correction_prefers_one_edit sample_corpus elements elements_order
           (str "b") sample_corpus_nonempty).
Defined.

Lemma correction_within_two_edits_witness :
  (∀ s : gset word, elements s ≡ₚ elements s)
  ∧ sample_corpus ≠ []
  ∧ ∃ r l, correction sample_corpus elements (str "") = Ok r
           ∧ edits2 elements (str "") = Ok l
           ∧ r ∈ l
           ∧ length (str "") - 2 ≤ length r ≤ length (str "") + 2.
Proof.
  split; [exact elements_order|]. split; [exact sample_corpus_nonempty|].
  exact (correction_within_two_edits sample_corpus elements elements_order
           (str "") sample_corpus_nonempty).
Defined.

Lemma correction_error_witness :
  (∀ s : gset word, elements s ≡ₚ elements s)
  ∧ (correction [] elements (str "b") = Raise ZeroDivisionError
     ↔ ([] : list word) = [])
  ∧ ∀ e, correction [] elements (str "b") = Raise e
         → e = ZeroDivisionError.
Proof.
  split; [exact elements_order|].
  exact (correction_error [] elements elements_order (str "b")).
Defined.

Lemma correction_first_maximal_witness :
  (∀ s : gset word, elements s ≡ₚ elements s)
  ∧ sample_corpus ≠ []
  ∧ ∃ c r pr l1 l2,
      candidate sample_corpus elements (str "b") = Ok c
      ∧ correction sample_corpus elements (str "b") = Ok r
      ∧ P sample_corpus r = Ok pr
      ∧ iterate elements c = l1 ++ r :: l2
      ∧ (∀ x, x ∈ l1 → ∃ px, P sample_corpus x = Ok px ∧ (px < pr)%Qc)
      ∧ (∀ x, x ∈ l2 → ∃ px, P sample_corpus x = Ok px ∧ (px ≤ pr)%Qc).
Proof.
  split; [exact elements_order|]. split; [exact sample_corpus_nonempty|].
  exact (correction_first_maximal sample_corpus elements elements_order
           (str "b") sample_corpus_nonempty).
Defined.

Lemma correction_corpus_order_witness :
  sample_corpus ≡ₚ str <$> ["cd"; "ab"; "ab"]%string
  ∧ WORDS sample_corpus = WORDS (str <$> ["cd"; "ab"; "ab"]%string)
  ∧ P sample_corpus (str "b") = P (str <$> ["cd"; "ab"; "ab"]%string) (str "b")
  ∧ correction sample_corpus elements (str "b")
    = correction (str <$> ["cd"; "ab"; "ab"]%string) elements (str "b").
Proof.
  split; [exact sample_corpus_reordered|].
  exact (correction_corpus_order sample_corpus _ elements (str "b")
           sample_corpus_reordered).
Defined.


Lemma words_join_witness :
  ascii_is_word " "%char = false
  ∧ Forall (λ t, t ≠ [] ∧ Forall (λ c, ascii_is_word c = true) t)
      (str <$> ["it"; "was"; "dark"]%string)
  ∧ ascii_lower (join " "%char (str <$> ["it"; "was"; "dark"]%string))
    = join " "%char (str <$> ["it"; "was"; "dark"]%string)
  ∧ words ascii_lower ascii_is_word
      (join " "%char (str <$> ["it"; "was"; "dark"]%string))
    = str <$> ["it"; "was"; "dark"]%string.
Proof.
  split; [exact space_not_word|]. split; [exact sample_tokens_well_formed|].
  split; [reflexivity|].
  exact (words_join ascii_lower ascii_is_word " "%char
           (str <$> ["it"; "was"; "dark"]%string)
           space_not_word sample_tokens_well_formed eq_refl).
Defined.

(** Symmetry of [edits1] needs the letters: ["1"] has the empty word among
    its edits, but ["1"] is not among the edits of the empty word. *)
Example edits1_not_symmetric_digit :
  ∃ s s', edits1 (str "1") = Ok s ∧ edits1 [] = Ok s'
          ∧ [] ∈ s ∧ str "1" ∉ s'.
Proof.
  eexists _, _. split; [apply edits1_ok|]. split; [apply edits1_ok|].
  split; [by vm_compute|]. by vm_compute.
Qed.
